(** * storj: node conversion at the Kademlia boundary, the repeat scheduler
      and the reputation records

    A shallow embedding of

    - [pkg/kademlia/dht.go]: the [Kademlia] wrapper around the external DHT
      library and the conversions between the wire [Node] and the library's
      [NetworkNode];
    - [pkg/overlay/mocks/mock_client.go]: the generated [MockClient];
    - [pkg/repeat/repeat.go] and the jobs of [pkg/repeatjobs/repeat_test.go];
    - [reputation/reputation.go] and the later [nodereputation] variant of
      the same functions.

    Go strings are byte sequences and are modelled by [string]; Go's [int]
    and [int64] are 64-bit two's complement integers, modelled by [Z] with
    the wrap-around written out. *)

From Stdlib Require Import ZArith List Bool Lia Ascii String QArith.
From Stdlib Require Import DecimalString DecimalZ.
Import ListNotations.

#[local] Open Scope string_scope.
#[local] Open Scope Z_scope.

(** ** Go strings and machine integers *)

Module GoString.

(** [len(s)] *)
Definition len (s : string) : Z := Z.of_nat (String.length s).

(** [s[lo:]] and [s[:hi]] on naturals *)
Fixpoint drop (n : nat) (s : string) : string :=
  match n, s with
  | O, _ => s
  | S n', String _ s' => drop n' s'
  | S _, EmptyString => EmptyString
  end.

Fixpoint take (n : nat) (s : string) : string :=
  match n, s with
  | O, _ => EmptyString
  | S n', String c s' => String c (take n' s')
  | S _, EmptyString => EmptyString
  end.

(** [s[lo:hi]], [s[lo:]] with Go's integer indices.  Go panics when the
    bounds are out of range; every use below is in range. *)
Definition slice (s : string) (lo hi : Z) : string :=
  take (Z.to_nat (hi - lo)) (drop (Z.to_nat lo) s).

Definition slice_from (s : string) (lo : Z) : string :=
  drop (Z.to_nat lo) s.

(** [bytealg.IndexByteString(s, c)]: the index of the first [c], or -1. *)
Fixpoint IndexByteString (s : string) (c : ascii) : Z :=
  match s with
  | EmptyString => -1
  | String a s' =>
      if Ascii.eqb a c then 0
      else let i := IndexByteString s' c in
           if i <? 0 then -1 else i + 1
  end.

(** [last(s, c)] of package net: the index of the last [c], or -1. *)
Fixpoint last (s : string) (c : ascii) : Z :=
  match s with
  | EmptyString => -1
  | String a s' =>
      let i := last s' c in
      if 0 <=? i then i + 1
      else if Ascii.eqb a c then 0 else -1
  end.

(** [s[i] == c]; Go panics when [i] is out of range, which no use below
    is. *)
Definition byteIs (s : string) (i : Z) (c : ascii) : bool :=
  match String.get (Z.to_nat i) s with
  | Some a => Ascii.eqb a c
  | None => false
  end.

(** The byte [c] does not occur in [s]. *)
Fixpoint lacks (c : ascii) (s : string) : bool :=
  match s with
  | EmptyString => true
  | String a s' => negb (Ascii.eqb a c) && lacks c s'
  end.

End GoString.

Module GoInt.

Definition minInt : Z := - 2 ^ 63.
Definition maxInt : Z := 2 ^ 63 - 1.

(** The value an [int] (or [int64]) holds after an arithmetic operation
    whose exact result is [z]. *)
Definition wrap (z : Z) : Z := (z + 2 ^ 63) mod 2 ^ 64 - 2 ^ 63.

Definition inRange (z : Z) : Prop := minInt <= z <= maxInt.

(** A decimal digit. *)
Definition isDigit (c : ascii) : bool :=
  existsb (Ascii.eqb c) ["0"; "1"; "2"; "3"; "4"; "5"; "6"; "7"; "8"; "9"]%char.

(** [strconv.Itoa(n)], which is also what [%d] and [%v] print for an
    [int]. *)
Definition Itoa (n : Z) : string := NilZero.string_of_int (Z.to_int n).

(** The digits of [strconv.Atoi]: at least one, all decimal. *)
Definition digits (s : string) : option Z :=
  option_map Z.of_uint (NilZero.uint_of_string s).

(** [strconv.Atoi(s)]: an optional sign and decimal digits.  A syntax
    error gives 0, a value out of range gives the nearest bound; the second
    component tells whether an error is returned with it. *)
Definition Atoi (s : string) : Z * bool :=
  let '(neg, body) :=
    match s with
    | String c s' =>
        if Ascii.eqb c "-" then (true, s')
        else if Ascii.eqb c "+" then (false, s')
        else (false, s)
    | EmptyString => (false, s)
    end in
  match digits body with
  | None => (0, true)
  | Some n =>
      let v := if neg then - n else n in
      if v <? minInt then (minInt, true)
      else if maxInt <? v then (maxInt, true)
      else (v, false)
  end.

End GoInt.

(** ** Package net: host and port *)

Module Net.
Import GoString.

(** [*net.AddrError] *)
Record AddrError := { Err : string; Addr : string }.

Definition missingPort := "missing port in address".
Definition tooManyColons := "too many colons in address".

(** [net.JoinHostPort]: a host with a colon is taken to be a literal IPv6
    address and is bracketed. *)
Definition JoinHostPort (host port : string) : string :=
  if 0 <=? IndexByteString host ":" then "[" ++ host ++ "]:" ++ port
  else host ++ ":" ++ port.

(** [net.SplitHostPort] *)
Definition SplitHostPort (hostport : string) : (string * string) + AddrError :=
  let addrErr why := inr {| Err := why; Addr := hostport |} in
  (* The port starts after the last colon. *)
  let i := last hostport ":" in
  if i <? 0 then addrErr missingPort
  else
    let host_j_k :=
      if byteIs hostport 0 "[" then
        (* Expect the first ']' just before the last ':'. *)
        let end_ := IndexByteString hostport "]" in
        if end_ <? 0 then inr "missing ']' in address"
        else if end_ + 1 =? len hostport then inr missingPort
        else if end_ + 1 =? i then inl (slice hostport 1 end_, 1, end_ + 1)
        else if byteIs hostport (end_ + 1) ":" then inr tooManyColons
        else inr missingPort
      else
        let host := slice hostport 0 i in
        if 0 <=? IndexByteString host ":" then inr tooManyColons
        else inl (host, 0, 0) in
    match host_j_k with
    | inr why => addrErr why
    | inl (host, j, k) =>
        if 0 <=? IndexByteString (slice_from hostport j) "[" then
          addrErr "unexpected '[' in address"
        else if 0 <=? IndexByteString (slice_from hostport k) "]" then
          addrErr "unexpected ']' in address"
        else inl (host, slice_from hostport (i + 1))
    end.

End Net.

(** ** Protocol messages ([protos/overlay]) *)

Module proto.

(** The transport enum of the wire format; TCP is its zero value. *)
Definition NodeTransport := Z.
Definition NodeTransport_TCP : NodeTransport := 0.

Record NodeAddress := { Transport : NodeTransport; na_Address : string }.

(** [Address] is a pointer in Go, [None] is nil. *)
Record Node := { Id : string; Address : option NodeAddress }.

(** [proto.Node{}] *)
Definition emptyNode : Node := {| Id := ""; Address := None |}.

(** The generated getters are nil-safe. *)
Definition GetId (v : Node) : string := Id v.
Definition GetAddress (v : Node) : option NodeAddress := Address v.
Definition NodeAddress_GetAddress (a : option NodeAddress) : string :=
  match a with
  | Some a => na_Address a
  | None => ""
  end.

End proto.

(** ** Package kademlia *)

Module kademlia.
Import proto.

(** What the code needs of [net.IP]: the type, how it prints and how it is
    parsed.  The development holds for every implementation of the three. *)
Class NetIP := {
  net_IP : Type;
  IP_String : net_IP -> string;
  ParseIP : string -> net_IP
}.

(** The errors of the package: [NodeErr.New(msg)] of the class
    ["node error"], the address error of [net.SplitHostPort], and whatever
    the DHT library returns. *)
Inductive error :=
| NodeErr_New (msg : string)
| AddrErr (e : Net.AddrError)
| DHTErr (msg : string).

Definition NodeID := string.

Definition defaultTransport : NodeTransport := NodeTransport_TCP.

Section WithIP.
Context {netip : NetIP}.

(** [bkad.NetworkNode]; the pointers the code handles are never nil. *)
Record NetworkNode := { ID : string; IP : net_IP; Port : Z }.

(** [bkad.NewNetworkNode(ip, port)]: the port is parsed with
    [strconv.Atoi], whose error is dropped; the ID is left empty. *)
Definition NewNetworkNode (ip port : string) : NetworkNode :=
  {| ID := ""; IP := ParseIP ip; Port := fst (GoInt.Atoi port) |}.

(** The handle [*bkad.DHT] of the library, seen through the answers of
    the calls the package makes. *)
Record DHT := {
  dht_Bootstrap : option error;
  dht_Ping : NetworkNode -> bool * option error;
  dht_FindNode : string -> list NetworkNode * option error;
  dht_FindNodes : string -> Z -> list NetworkNode * option error;
  dht_GetSelfID : string
}.

(** [RouteTable{ht: dht.HT, dht: dht}]: both fields point into the
    library handle. *)
Record RouteTable := { rt_dht : DHT }.

Record Kademlia := {
  rt : RouteTable;
  bootstrapNodes : list Node;
  ip : string;
  port : string;
  stun : bool;
  dht : DHT
}.

Definition convertNetworkNode (v : NetworkNode) : Node :=
  {| Id := ID v;
     Address := Some {| Transport := defaultTransport;
                        na_Address := Net.JoinHostPort (IP_String (IP v))
                                                       (GoInt.Itoa (Port v)) |} |}.

Definition convertProtoNode (v : Node) : NetworkNode + error :=
  match Net.SplitHostPort (NodeAddress_GetAddress (GetAddress v)) with
  | inr err => inr (AddrErr err)
  | inl (host, port) =>
      let nn := NewNetworkNode host port in
      inl {| ID := GetId v; IP := IP nn; Port := Port nn |}
  end.

(** The pointer a node converts to, nil when it does not convert. *)
Definition converted (v : Node) : option NetworkNode :=
  match convertProtoNode v with
  | inl node => Some node
  | inr _ => None
  end.

(** [make([]*T, n)]: [n] nil pointers. *)
Definition make {A : Type} (n : nat) : list (option A) := repeat None n.

(** [nn[i] = x]; the index is always in range where it is used. *)
Fixpoint assign {A : Type} (nn : list A) (i : nat) (x : A) : list A :=
  match nn, i with
  | [], _ => []
  | _ :: t, O => x :: t
  | h :: t, S i' => h :: assign t i' x
  end.

(** The loop of [convertProtoNodes] from index [i] on: the first node that
    does not convert ends it with [nil] and the error. *)
Fixpoint convertProtoNodes_loop (i : nat) (n : list Node)
    (nn : list (option NetworkNode)) : list (option NetworkNode) * option error :=
  match n with
  | [] => (nn, None)
  | v :: rest =>
      match convertProtoNode v with
      | inr err => ([], Some err)
      | inl node => convertProtoNodes_loop (S i) rest (assign nn i (Some node))
      end
  end.

Definition convertProtoNodes (n : list Node) : list (option NetworkNode) * option error :=
  convertProtoNodes_loop 0 n (make (List.length n)).

Fixpoint convertNetworkNodes_loop (i : nat) (n : list NetworkNode)
    (nn : list (option Node)) : list (option Node) :=
  match n with
  | [] => nn
  | v :: rest => convertNetworkNodes_loop (S i) rest (assign nn i (Some (convertNetworkNode v)))
  end.

Definition convertNetworkNodes (n : list NetworkNode) : list (option Node) :=
  convertNetworkNodes_loop 0 n (make (List.length n)).

(** [GetNodes], a value receiver. *)
Definition GetNodes (k : Kademlia) (start : string) (limit : Z)
    : list (option Node) * option error :=
  let start := if String.eqb start "" then dht_GetSelfID (dht k) else start in
  match dht_FindNodes (dht k) start limit with
  | (_, Some err) => ([], Some err)
  | (nn, None) => (convertNetworkNodes nn, None)
  end.

(** The methods below have the receiver [k *Kademlia]; they are written
    in state-passing style and return the receiver as they leave it. *)

Definition Bootstrap (k : Kademlia) : option error * Kademlia :=
  (dht_Bootstrap (dht k), k).

Definition Ping (k : Kademlia) (node : Node) : (Node * option error) * Kademlia :=
  match convertProtoNode node with
  | inr err => ((emptyNode, Some err), k)
  | inl n =>
      match dht_Ping (dht k) n with
      | (_, Some err) => ((emptyNode, Some err), k)
      | (false, None) => ((emptyNode, Some (NodeErr_New "node unavailable")), k)
      | (true, None) => ((node, None), k)
      end
  end.

(** [%s:%d] of [fmt.Sprintf] *)
Definition Sprintf_host_port (host : string) (port : Z) : string :=
  host ++ ":" ++ GoInt.Itoa port.

(** The range loop of [FindNode] over the nodes the search returned. *)
Fixpoint FindNode_range (nodes : list NetworkNode) (ID0 : NodeID) : Node * option error :=
  match nodes with
  | [] => (emptyNode, Some (NodeErr_New "node not found"))
  | v :: rest =>
      if String.eqb (ID v) ID0 then
        ({| Id := ID v;
            Address := Some {| Transport := defaultTransport;
                               na_Address := Sprintf_host_port (IP_String (IP v)) (Port v) |} |},
         None)
      else FindNode_range rest ID0
  end.

Definition FindNode (k : Kademlia) (ID0 : NodeID) : (Node * option error) * Kademlia :=
  match dht_FindNode (dht k) ID0 with
  | (_, Some err) => ((emptyNode, Some err), k)
  | (nodes, None) => (FindNode_range nodes ID0, k)
  end.

(** A well-formed address prints without brackets and its text is read
    back as an address that prints the same. *)
Definition wellFormedIP (a : net_IP) : Prop :=
  GoString.lacks "[" (IP_String a) = true /\
  GoString.lacks "]" (IP_String a) = true /\
  IP_String (ParseIP (IP_String a)) = IP_String a.

(** The wire shape of the node [v]: its ID, the TCP transport and an
    address that is the text [host:port] of its IP and port, that is, a
    text [net.SplitHostPort] splits into the two. *)
Definition wireShape (v : NetworkNode) (n : Node) : Prop :=
  Id n = ID v /\
  exists a, Address n = Some a /\
            Transport a = NodeTransport_TCP /\
            Net.SplitHostPort (na_Address a)
              = inl (IP_String (IP v), GoInt.Itoa (Port v)).

(** The receiver [k] with another seed list. *)
Definition withBootstrapNodes (k : Kademlia) (seeds : list Node) : Kademlia :=
  {| rt := rt k; bootstrapNodes := seeds;
     ip := ip k; port := port k; stun := stun k; dht := dht k |}.

(** A receiver around the library handle [d], with the seed list
    [seeds]. *)
Definition newKademlia (d : DHT) (seeds : list Node) : Kademlia :=
  {| rt := {| rt_dht := d |}; bootstrapNodes := seeds;
     ip := "127.0.0.1"; port := "7070"; stun := true; dht := d |}.

End WithIP.

(** An implementation of [NetIP] for concrete runs: an address is
    represented by the text [IP.String()] prints for it. *)
Definition TextIP : NetIP :=
  {| net_IP := string; IP_String := fun s => s; ParseIP := fun s => s |}.

End kademlia.

(** ** The generated mock of the overlay client *)

Module mock_overlay.
Import proto.

(** The values that travel as [interface{}] through the mock controller. *)
Inductive iface :=
| I_nil
| I_ctx
| I_int (n : Z)
| I_id (id : string)
| I_ids (ids : list string)
| I_node (n : option Node)
| I_nodes (l : list (option Node))
| I_error (e : kademlia.error).

(** [gomock.Controller]: [Call] gives the return values the test programmed
    for the method, one per result of the method. *)
Record Controller := { Call : string -> list iface -> list iface }.

Record MockClient := { ctrl : Controller }.

(** [ret[i]] *)
Definition index (ret : list iface) (i : nat) : iface := nth i ret I_nil.

(** The two-valued type assertions to a slice of node pointers, to a node
    pointer and to [error]: the zero value when the dynamic type is another
    one. *)
Definition assert_nodes (x : iface) : list (option Node) :=
  match x with I_nodes l => l | _ => [] end.
Definition assert_node (x : iface) : option Node :=
  match x with I_node n => n | _ => None end.
Definition assert_error (x : iface) : option kademlia.error :=
  match x with I_error e => Some e | _ => None end.

Definition BulkLookup (m : MockClient) (arg0 : iface) (arg1 : list string)
    : list (option Node) * option kademlia.error :=
  let ret := Call (ctrl m) "BulkLookup" [arg0; I_ids arg1] in
  let ret0 := assert_nodes (index ret 0) in
  let ret1 := assert_error (index ret 1) in
  (ret0, ret1).

Definition Choose (m : MockClient) (arg0 : iface) (arg1 arg2 : Z)
    : list (option Node) * option kademlia.error :=
  let ret := Call (ctrl m) "Choose" [arg0; I_int arg1; I_int arg2] in
  let ret0 := assert_nodes (index ret 0) in
  let ret1 := assert_error (index ret 1) in
  (ret0, ret1).

Definition Lookup (m : MockClient) (arg0 : iface) (arg1 : string)
    : option Node * option kademlia.error :=
  let ret := Call (ctrl m) "Lookup" [arg0; I_id arg1] in
  let ret0 := assert_node (index ret 0) in
  let ret1 := assert_error (index ret 1) in
  (ret0, ret1).

End mock_overlay.

(** ** Package repeat *)

Module repeat.

(** The interface [Repeater].  A job is a handle [J] (in Go, usually a
    pointer) into a mutable world [W]: [Repeat()] may change the world,
    [Name()] and [State()] read it.  Two entries of a job list may be the
    same handle.  An error is represented by its message. *)
Class Repeater (J W : Type) := {
  job_Repeat : J -> W -> (bool * option string) * W;
  Name : J -> W -> string;
  State : J -> W -> string
}.

Section Repeat.
Context {J W : Type} {repeater : Repeater J W}.

(** [fmt.Sprintf("error at index %v for job %v with state %v err %v", ...)] *)
Definition Sprintf_error (i : Z) (name state err : string) : string :=
  "error at index " ++ GoInt.Itoa i ++ " for job " ++ name
    ++ " with state " ++ state ++ " err " ++ err.

(** The range loop of [Repeat], from index [i] on, with the variables
    [resJobs] and [errors] it updates. *)
Fixpoint Repeat_range (i : Z) (jobs resJobs : list J) (errors : list string) (w : W)
    : list J * list string * W :=
  match jobs with
  | [] => (resJobs, errors, w)
  | job :: rest =>
      let '((repeat, err), w) := job_Repeat job w in
      let errors :=
        match err with
        | Some err =>
            let e := Sprintf_error i (Name job w) (State job w) err in
            (errors ++ [e])%list
        | None => errors
        end in
      let resJobs := if repeat then (resJobs ++ [job])%list else resJobs in
      Repeat_range (i + 1) rest resJobs errors w
  end.

(** [Repeat]; every call of the function, the first included, takes one
    unit of [fuel], and [None] means that the fuel ran out. *)
Fixpoint Repeat (fuel : nat) (jobs : list J) (errors : list string) (w : W)
    : option (list string * W) :=
  match fuel with
  | O => None
  | S fuel =>
      if Z.of_nat (List.length jobs) <=? 0 then Some (errors, w)
      else
        let '(resJobs, errors, w) := Repeat_range 0 jobs [] errors w in
        Repeat fuel resJobs errors w
  end.

(** *** The rounds as the description has them

    One invocation of a job's [Repeat()]: who was called, what it
    returned and the world it left. *)
Record call := {
  callee : J;
  again : bool;
  failure : option string;
  after : W
}.

(** Every job of the list is invoked once, in list order, each in the
    world the previous one left. *)
Fixpoint invoke_all (jobs : list J) (w : W) : list call :=
  match jobs with
  | [] => []
  | job :: rest =>
      let r := job_Repeat job w in
      {| callee := job; again := fst (fst r); failure := snd (fst r); after := snd r |}
        :: invoke_all rest (snd r)
  end.

(** The world after a sequence of calls begun in [w]. *)
Definition world_after (w : W) (calls : list call) : W :=
  List.last (map after calls) w.

(** The jobs that returned true, in the order of their calls. *)
Definition retained (calls : list call) : list J :=
  map callee (filter again calls).

(** One formatted entry per call that returned an error; [i] is the index
    of the first call. *)
Fixpoint reported (i : Z) (calls : list call) : list string :=
  match calls with
  | [] => []
  | c :: rest =>
      match failure c with
      | Some err =>
          Sprintf_error i (Name (callee c) (after c)) (State (callee c) (after c)) err
            :: reported (i + 1) rest
      | None => reported (i + 1) rest
      end
  end.

(** The calls of one round over jobs that carry the position they have in
    the first list. *)
Definition numbered_calls (jobs : list (nat * J)) (w : W) : list (nat * call) :=
  combine (map fst jobs) (invoke_all (map snd jobs) w).

(** The numbered jobs the round retains. *)
Definition numbered_retained (jobs : list (nat * J)) (w : W) : list (nat * J) :=
  map (fun p => (fst p, callee (snd p)))
      (filter (fun p => again (snd p)) (numbered_calls jobs w)).

(** The calls of round [r]; the first round is round 0. *)
Fixpoint round_calls (r : nat) (jobs : list (nat * J)) (w : W) : list (nat * call) :=
  match r with
  | O => numbered_calls jobs w
  | S r' =>
      round_calls r' (numbered_retained jobs w)
                  (world_after w (invoke_all (map snd jobs) w))
  end.

(** The jobs of a list with their positions. *)
Definition numbered (jobs : list J) : list (nat * J) :=
  combine (seq 0 (List.length jobs)) jobs.

(** In round [r] of [Repeat(jobs, _)] begun in world [w], the entry at
    position [i] of [jobs] is invoked and returns false. *)
Definition returns_false_in_round (jobs : list J) (w : W) (i r : nat) : Prop :=
  exists c, In (i, c) (round_calls r (numbered jobs) w) /\ again c = false.

(** [Repeat(jobs, errors)] returns. *)
Definition terminates (jobs : list J) (errors : list string) (w : W) : Prop :=
  exists fuel res, Repeat fuel jobs errors w = Some res.

End Repeat.

End repeat.

(** ** The jobs of the scheduler's tests *)

Module jobs.
Import repeat.

Record inc := { inc_id : string; inc_num : Z }.
Record dec := { dec_id : string; dec_num : Z }.

(** The jobs are handed to [Repeat] as pointers: the structs live in a
    heap, a pointer is an address. *)
Inductive object :=
| Inc (s : inc)
| Dec (s : dec).

Definition heap := nat -> object.

Definition store (h : heap) (p : nat) (o : object) : heap :=
  fun q => if Nat.eqb q p then o else h q.

Definition inc_Repeat (s : inc) : (bool * option string) * inc :=
  let s := {| inc_id := inc_id s; inc_num := GoInt.wrap (inc_num s + 1) |} in
  if 10 <=? inc_num s then ((false, None), s) else ((true, None), s).

Definition dec_Repeat (s : dec) : (bool * option string) * dec :=
  let s := {| dec_id := dec_id s; dec_num := GoInt.wrap (dec_num s - 1) |} in
  if dec_num s <=? 0 then ((false, None), s) else ((true, None), s).

#[export] Instance pointer_Repeater : Repeater nat heap := {
  job_Repeat p h :=
    match h p with
    | Inc s => let '(r, s) := inc_Repeat s in (r, store h p (Inc s))
    | Dec s => let '(r, s) := dec_Repeat s in (r, store h p (Dec s))
    end;
  Name p h :=
    match h p with
    | Inc s => inc_id s
    | Dec s => dec_id s
    end;
  State p h :=
    match h p with
    | Inc s => GoInt.Itoa (inc_num s)
    | Dec s => GoInt.Itoa (dec_num s)
    end
}.

(** A job outside the tests, for the rounds [Repeat] can take: a counter of
    arbitrary precision that asks to be repeated until it is zero. *)
#[export] Instance countdown_Repeater : Repeater unit nat := {
  job_Repeat _ n :=
    match n with
    | O => ((false, None), O)
    | S m => ((true, None), m)
    end;
  Name _ _ := "countdown";
  State _ n := GoInt.Itoa (Z.of_nat n)
}.

(** The heap of [TestCountUpToTen]: [add] at address 0. *)
Definition heap_CountUpToTen : heap :=
  fun _ => Inc {| inc_id := "Ten"; inc_num := 1 |}.

(** The heap of [TestCountDownToZero]: [sub] at address 0. *)
Definition heap_CountDownToZero : heap :=
  fun _ => Dec {| dec_id := "Ten"; dec_num := 10 |}.

(** The heap of [TestUpAndDown]: [add] at address 0, [sub] at address 1. *)
Definition heap_UpAndDown : heap :=
  fun p => match p with
           | O => Inc {| inc_id := "Ten"; inc_num := 0 |}
           | _ => Dec {| dec_id := "Ten"; dec_num := 10 |}
           end.

End jobs.

(** ** Floating-point quotients *)

Module GoFloat.

(** A float is not-a-number, an infinity or a finite value; a finite value
    is kept as the exact rational it stands for (rounding to the precision
    of [float32] or [float64] is not modelled). *)
Inductive float :=
| NaN
| Inf (negative : bool)
| Fin (q : Q).

(** [float(a) / float(b)] for two integers. Dividing by zero does not
    panic on floats: it gives an infinity, or NaN for 0/0. *)
Definition quo (a b : Z) : float :=
  if b =? 0 then (if a =? 0 then NaN else Inf (a <? 0))
  else Fin (inject_Z a / inject_Z b).

End GoFloat.

(** ** The reputation records *)

(** The row type of both packages: [reputation.NodeReputationRecord] and the
    [nodeReputationRecord] the later package builds with the same ten
    fields. *)
Record NodeReputationRecord := {
  source : string;
  nodeName : string;
  timestamp : string;
  uptime : Z;
  auditSuccess : Z;
  auditFail : Z;
  latency : Z;
  amountOfDataStored : Z;
  falseClaims : Z;
  shardsModified : Z
}.

(** A record with one field assigned: what [row.f = v] makes of the copy of
    the row the function holds. *)
Definition set_uptime (row : NodeReputationRecord) (v : Z) :=
  {| source := source row; nodeName := nodeName row; timestamp := timestamp row;
     uptime := v; auditSuccess := auditSuccess row; auditFail := auditFail row;
     latency := latency row; amountOfDataStored := amountOfDataStored row;
     falseClaims := falseClaims row; shardsModified := shardsModified row |}.
Definition set_auditSuccess (row : NodeReputationRecord) (v : Z) :=
  {| source := source row; nodeName := nodeName row; timestamp := timestamp row;
     uptime := uptime row; auditSuccess := v; auditFail := auditFail row;
     latency := latency row; amountOfDataStored := amountOfDataStored row;
     falseClaims := falseClaims row; shardsModified := shardsModified row |}.
Definition set_auditFail (row : NodeReputationRecord) (v : Z) :=
  {| source := source row; nodeName := nodeName row; timestamp := timestamp row;
     uptime := uptime row; auditSuccess := auditSuccess row; auditFail := v;
     latency := latency row; amountOfDataStored := amountOfDataStored row;
     falseClaims := falseClaims row; shardsModified := shardsModified row |}.
Definition set_latency (row : NodeReputationRecord) (v : Z) :=
  {| source := source row; nodeName := nodeName row; timestamp := timestamp row;
     uptime := uptime row; auditSuccess := auditSuccess row; auditFail := auditFail row;
     latency := v; amountOfDataStored := amountOfDataStored row;
     falseClaims := falseClaims row; shardsModified := shardsModified row |}.
Definition set_amountOfDataStored (row : NodeReputationRecord) (v : Z) :=
  {| source := source row; nodeName := nodeName row; timestamp := timestamp row;
     uptime := uptime row; auditSuccess := auditSuccess row; auditFail := auditFail row;
     latency := latency row; amountOfDataStored := v;
     falseClaims := falseClaims row; shardsModified := shardsModified row |}.
Definition set_falseClaims (row : NodeReputationRecord) (v : Z) :=
  {| source := source row; nodeName := nodeName row; timestamp := timestamp row;
     uptime := uptime row; auditSuccess := auditSuccess row; auditFail := auditFail row;
     latency := latency row; amountOfDataStored := amountOfDataStored row;
     falseClaims := v; shardsModified := shardsModified row |}.
Definition set_shardsModified (row : NodeReputationRecord) (v : Z) :=
  {| source := source row; nodeName := nodeName row; timestamp := timestamp row;
     uptime := uptime row; auditSuccess := auditSuccess row; auditFail := auditFail row;
     latency := latency row; amountOfDataStored := amountOfDataStored row;
     falseClaims := falseClaims row; shardsModified := v |}.

(** The string types [mutOp] and [column] with their constants. *)
Definition mutOp := string.
Definition increment : mutOp := "increment".
Definition decrement : mutOp := "decrement".
Definition overWrite : mutOp := "overWrite".

Definition column := string.
Definition uptimeColumn : column := "uptime".
Definition auditSuccessColumn : column := "auditSuccess".
Definition auditFailColumn : column := "auditFail".
Definition latencyColumn : column := "latency".
Definition amountOfDataStoredColumn : column := "amountOfDataStored".
Definition falseClaimsColumn : column := "falseClaims".
Definition shardsModifiedColumn : column := "shardsModified".

(** The record [r] differs from [row] at most in the field the column [col]
    selects. *)
Definition differsOnlyAt (col : column) (row r : NodeReputationRecord) : Prop :=
  source r = source row /\
  nodeName r = nodeName row /\
  timestamp r = timestamp row /\
  (col <> uptimeColumn -> uptime r = uptime row) /\
  (col <> auditSuccessColumn -> auditSuccess r = auditSuccess row) /\
  (col <> auditFailColumn -> auditFail r = auditFail row) /\
  (col <> latencyColumn -> latency r = latency row) /\
  (col <> amountOfDataStoredColumn -> amountOfDataStored r = amountOfDataStored row) /\
  (col <> falseClaimsColumn -> falseClaims r = falseClaims row) /\
  (col <> shardsModifiedColumn -> shardsModified r = shardsModified row).

(** [reputation/reputation.go] *)
Module reputation.

Definition auditSuccessRatio (row : NodeReputationRecord) : GoFloat.float :=
  GoFloat.quo (auditSuccess row) (GoInt.wrap (auditSuccess row + auditFail row)).

Definition performOp (op : mutOp) (value scalar : Z) : Z :=
  if String.eqb op increment then GoInt.wrap (value + scalar)
  else if String.eqb op decrement then GoInt.wrap (value - scalar)
  else if String.eqb op overWrite then scalar
  else value.

(** The receiver is a value: the method works on its own copy of the
    record. *)
Definition morphism (row : NodeReputationRecord) (col : column) (op : mutOp) (scalar : Z)
    : NodeReputationRecord :=
  if String.eqb col uptimeColumn then
    set_uptime row (performOp op (uptime row) scalar)
  else if String.eqb col auditSuccessColumn then
    set_auditSuccess row (performOp op (auditSuccess row) scalar)
  else if String.eqb col auditFailColumn then
    set_auditFail row (performOp op (auditFail row) scalar)
  else if String.eqb col latencyColumn then
    set_latency row (performOp op (latency row) scalar)
  else if String.eqb col amountOfDataStoredColumn then
    set_amountOfDataStored row (performOp op (amountOfDataStored row) scalar)
  else if String.eqb col falseClaimsColumn then
    set_falseClaims row (performOp op (falseClaims row) scalar)
  else if String.eqb col shardsModifiedColumn then
    set_shardsModified row (performOp op (shardsModified row) scalar)
  else row.

(** The loop appends one morphed row per row. *)
Definition NodeReputationRecordMorphism (rows : list NodeReputationRecord)
    (col : column) (op : mutOp) (scalar : Z) : list NodeReputationRecord :=
  fold_left (fun res row => (res ++ [morphism row col op scalar])%list) rows [].

Definition NewReputationRow (source name : string) : NodeReputationRecord :=
  {| source := source; nodeName := name; timestamp := "";
     uptime := 0; auditSuccess := 0; auditFail := 0; latency := 0;
     amountOfDataStored := 0; falseClaims := 0; shardsModified := 0 |}.

End reputation.

(** The later package [nodereputation], whose functions take the row as an
    argument. *)
Module nodereputation.

Definition auditSuccessRatio (row : NodeReputationRecord) : GoFloat.float :=
  let res := GoFloat.Fin 0 in
  let total := GoInt.wrap (auditSuccess row + auditFail row) in
  if 0 <? total then GoFloat.quo (auditSuccess row) total else res.

Definition performOp (op : mutOp) (value scalar : Z) : Z :=
  if String.eqb op increment then GoInt.wrap (value + scalar)
  else if String.eqb op decrement then GoInt.wrap (value - scalar)
  else if String.eqb op overWrite then scalar
  else value.

(** The row is passed by value. *)
Definition morphism (row : NodeReputationRecord) (col : column) (op : mutOp) (scalar : Z)
    : NodeReputationRecord :=
  if String.eqb col uptimeColumn then
    set_uptime row (performOp op (uptime row) scalar)
  else if String.eqb col auditSuccessColumn then
    set_auditSuccess row (performOp op (auditSuccess row) scalar)
  else if String.eqb col auditFailColumn then
    set_auditFail row (performOp op (auditFail row) scalar)
  else if String.eqb col latencyColumn then
    set_latency row (performOp op (latency row) scalar)
  else if String.eqb col amountOfDataStoredColumn then
    set_amountOfDataStored row (performOp op (amountOfDataStored row) scalar)
  else if String.eqb col falseClaimsColumn then
    set_falseClaims row (performOp op (falseClaims row) scalar)
  else if String.eqb col shardsModifiedColumn then
    set_shardsModified row (performOp op (shardsModified row) scalar)
  else row.

Definition newReputationRow (source name : string) : NodeReputationRecord :=
  {| source := source; nodeName := name; timestamp := "";
     uptime := 0; auditSuccess := 0; auditFail := 0; latency := 0;
     amountOfDataStored := 0; falseClaims := 0; shardsModified := 0 |}.

End nodereputation.

(** ** Concrete nodes and library handles *)

Module examples.
Import proto kademlia mock_overlay.

#[local] Existing Instance TextIP.

(** A library handle that finds nobody and whose pings are not answered. *)
Definition silentDHT : DHT :=
  {| dht_Bootstrap := None;
     dht_Ping := fun _ => (false, None);
     dht_FindNode := fun _ => ([], None);
     dht_FindNodes := fun _ _ => ([], None);
     dht_GetSelfID := "self" |}.

(** A library handle whose search fails. *)
Definition failingDHT : DHT :=
  {| dht_Bootstrap := Some (DHTErr "no route to host");
     dht_Ping := fun _ => (false, Some (DHTErr "no route to host"));
     dht_FindNode := fun _ => ([], Some (DHTErr "no route to host"));
     dht_FindNodes := fun _ _ => ([], Some (DHTErr "no route to host"));
     dht_GetSelfID := "self" |}.

Definition nodeV4 : NetworkNode := {| ID := "n4"; IP := "127.0.0.1"; Port := 8080 |}.
Definition nodeV6 : NetworkNode := {| ID := "n6"; IP := "::1"; Port := 8080 |}.

(** A library handle that knows the two nodes above and answers every
    ping. *)
Definition knowingDHT : DHT :=
  {| dht_Bootstrap := None;
     dht_Ping := fun _ => (true, None);
     dht_FindNode := fun _ => ([nodeV4; nodeV6], None);
     dht_FindNodes := fun _ _ => ([nodeV4; nodeV6], None);
     dht_GetSelfID := "self" |}.

Definition protoV4 : Node :=
  {| Id := "n4";
     Address := Some {| Transport := NodeTransport_TCP; na_Address := "127.0.0.1:8080" |} |}.

(** A node whose address has no port. *)
Definition protoNoPort : Node :=
  {| Id := "n0";
     Address := Some {| Transport := NodeTransport_TCP; na_Address := "127.0.0.1" |} |}.

(** A mock programmed to answer [BulkLookup] with the list [l] and no
    error. *)
Definition programmed (l : list (option Node)) : MockClient :=
  {| ctrl := {| Call := fun _ _ => [I_nodes l; I_nil] |} |}.

End examples.

(** ** Comparisons of strings and floats *)

Module GoCompare.

(** [a > b] and [a < b] on strings: bytewise, lexicographic. *)
Definition string_gt (a b : string) : bool := String.ltb b a.
Definition string_lt (a b : string) : bool := String.ltb a b.

(** [x > y] and [x < y] on floats.  Every comparison with NaN is false;
    finite values are compared as the rationals they stand for. *)
Definition float_gt (x y : GoFloat.float) : bool :=
  match x, y with
  | GoFloat.NaN, _ => false
  | _, GoFloat.NaN => false
  | GoFloat.Inf nx, GoFloat.Inf ny => negb nx && ny
  | GoFloat.Inf nx, GoFloat.Fin _ => negb nx
  | GoFloat.Fin _, GoFloat.Inf ny => ny
  | GoFloat.Fin a, GoFloat.Fin b => negb (Qle_bool a b)
  end.

Definition float_lt (x y : GoFloat.float) : bool := float_gt y x.

End GoCompare.

(** ** The comparison of records in [reputation/reputation.go] *)

Module reputation_endian.
Import GoCompare.

(** The two bits a column writes, for the row and for the other record:
    [bytes.Buffer.WriteString] appends to each buffer. *)
Definition write (codes : string * string) (rowBit otherBit : string) : string * string :=
  (fst codes ++ rowBit, snd codes ++ otherBit).

(** The three-way switch most columns share: [better] and [worse] are the
    two tests of the switch, in the order of the code. *)
Definition write3 (codes : string * string) (better worse : bool) : string * string :=
  if better then write codes "1" "0"
  else if worse then write codes "0" "1"
  else write codes "0" "0".

(** The buffers [rowEndian] and [otherEndian] when [endian] has written all
    seven columns. *)
Definition endian_codes (row other : NodeReputationRecord) : string * string :=
  let codes := ("", "") in
  let codes :=
    write3 codes
      (string_gt (timestamp row) (timestamp other) && String.eqb (nodeName row) (nodeName other))
      (string_lt (timestamp row) (timestamp other) && String.eqb (nodeName row) (nodeName other)) in
  let codes :=
    (if 0 <? shardsModified row then fst codes ++ "0" else fst codes ++ "1", snd codes) in
  let codes :=
    (fst codes, if 0 <? shardsModified other then snd codes ++ "0" else snd codes ++ "1") in
  let codes :=
    write3 codes (falseClaims row <? falseClaims other) (falseClaims other <? falseClaims row) in
  let codes :=
    write3 codes
      (float_gt (reputation.auditSuccessRatio row) (reputation.auditSuccessRatio other))
      (float_lt (reputation.auditSuccessRatio row) (reputation.auditSuccessRatio other)) in
  let codes := write3 codes (uptime other <? uptime row) (uptime row <? uptime other) in
  let codes := write3 codes (latency row <? latency other) (latency other <? latency row) in
  write3 codes (amountOfDataStored other <? amountOfDataStored row)
         (amountOfDataStored row <? amountOfDataStored other).

(** Both buffers begin with the given texts. *)
Definition begins (a b : string) (codes : string * string) : Prop :=
  exists x y, codes = (a ++ x, b ++ y).

(** [%v] of a record: the fields between braces, separated by spaces. *)
Definition Sprint_record (r : NodeReputationRecord) : string :=
  "{" ++ source r ++ " " ++ nodeName r ++ " " ++ timestamp r ++ " "
      ++ GoInt.Itoa (uptime r) ++ " " ++ GoInt.Itoa (auditSuccess r) ++ " "
      ++ GoInt.Itoa (auditFail r) ++ " " ++ GoInt.Itoa (latency r) ++ " "
      ++ GoInt.Itoa (amountOfDataStored r) ++ " " ++ GoInt.Itoa (falseClaims r) ++ " "
      ++ GoInt.Itoa (shardsModified r) ++ "}".

Definition newline : string := String (ascii_of_nat 10) "".

(** The method [endian]: the record it returns and the text it prints. *)
Definition endian (row other : NodeReputationRecord) : NodeReputationRecord * string :=
  let '(rowEndian, otherEndian) := endian_codes row other in
  let res := if string_gt rowEndian otherEndian then row else other in
  (res,
   "endian: " ++ rowEndian ++ ", me: " ++ nodeName row ++ newline
     ++ "endian: " ++ otherEndian ++ ", other: " ++ nodeName other ++ newline
     ++ "WINNER: " ++ Sprint_record res ++ newline ++ newline).

End reputation_endian.

(** ** The SQL statements of the later package *)

Module statements.

Definition nodeNameColumn : column := "nodeName".
Definition lastSeenColumn : column := "lastseen".

Definition newline : string := String (ascii_of_nat 10) "".
Definition tab : string := String (ascii_of_nat 9) "".

Record updateProtoTodo := { update_col : column; update_value : string }.

(** The first value of [acc] in [GenUpdateStatement]. *)
Definition updateHead : string :=
  newline ++ "UPDATE node_reputation" ++ newline
    ++ "SET last_seen = STRFTIME('%Y-%m-%d %H:%M:%f', 'NOW')".

(** The body of the loop of [GenUpdateStatement]. *)
Definition addUpdate (acc : string) (update : updateProtoTodo) : string :=
  let col := update_col update in
  if String.eqb col uptimeColumn then acc ++ ", uptime = " ++ update_value update
  else if String.eqb col auditSuccessColumn then acc ++ ", audit_success = " ++ update_value update
  else if String.eqb col auditFailColumn then acc ++ ", audit_fail = " ++ update_value update
  else if String.eqb col latencyColumn then acc ++ ", latency = " ++ update_value update
  else if String.eqb col amountOfDataStoredColumn then
    acc ++ ", amount_of_data_stored = " ++ update_value update
  else if String.eqb col falseClaimsColumn then acc ++ ", false_claims = " ++ update_value update
  else if String.eqb col shardsModifiedColumn then
    acc ++ ", shards_modified = " ++ update_value update
  else acc.

(** [GenUpdateStatement]; its first parameter, the database, is not used. *)
Definition GenUpdateStatement (updates : list updateProtoTodo) (node : string) : string :=
  let acc := updateHead in
  if 0 <? Z.of_nat (List.length updates) then
    let acc := fold_left addUpdate updates acc in
    acc ++ "WHERE node_name = '" ++ node ++ "';"
  else "SELECT 'No updates found in parameter list';".

Definition WhereOpt := string.
Definition equal : WhereOpt := "=".
Definition greater : WhereOpt := ">".
Definition greaterEqual : WhereOpt := ">=".
Definition less : WhereOpt := "<".
Definition lessEqual : WhereOpt := "<=".
Definition notEqual : WhereOpt := "!=".

Definition toString (opt : WhereOpt) : string :=
  let res := "" in
  if String.eqb opt equal then "="
  else if String.eqb opt greater then ">"
  else if String.eqb opt greaterEqual then ">="
  else if String.eqb opt less then "<"
  else if String.eqb opt lessEqual then "<="
  else if String.eqb opt notEqual then "!="
  else res.

Record whereProtoTodo := { where_col : column; where_opt : WhereOpt; where_value : string }.

(** The body of the loop of [GenWhereStatement]. *)
Definition addWhere (where_ : string) (opt : whereProtoTodo) : string :=
  let operand := toString (where_opt opt) in
  let col := where_col opt in
  if String.eqb col nodeNameColumn then
    where_ ++ " node_name" ++ operand ++ " '" ++ where_value opt ++ "'"
  else if String.eqb col lastSeenColumn then
    where_ ++ " timestamp" ++ operand ++ " STRFTIME('%Y-%m-%d %H:%M:%f'," ++ where_value opt ++ ")"
  else if String.eqb col uptimeColumn then
    where_ ++ " uptime" ++ operand ++ " " ++ where_value opt
  else if String.eqb col auditSuccessColumn then
    where_ ++ " audit_succes" ++ operand ++ " " ++ where_value opt
  else if String.eqb col auditFailColumn then
    where_ ++ " audit_fail" ++ operand ++ " " ++ where_value opt
  else if String.eqb col latencyColumn then
    where_ ++ " latency" ++ operand ++ " " ++ where_value opt
  else if String.eqb col amountOfDataStoredColumn then
    where_ ++ " amount_of_data_stored" ++ operand ++ " " ++ where_value opt
  else if String.eqb col falseClaimsColumn then
    where_ ++ " false_claims" ++ operand ++ " " ++ where_value opt
  else if String.eqb col shardsModifiedColumn then
    where_ ++ " shards_modified" ++ operand ++ " " ++ where_value opt
  else "".

Definition selectString : string :=
  "SELECT" ++ newline
    ++ tab ++ "node_name," ++ newline
    ++ tab ++ "timestamp," ++ newline
    ++ tab ++ "uptime," ++ newline
    ++ tab ++ "audit_success," ++ newline
    ++ tab ++ "audit_fail," ++ newline
    ++ tab ++ "latency," ++ newline
    ++ tab ++ "amount_of_data_stored," ++ newline
    ++ tab ++ "false_claims," ++ newline
    ++ tab ++ "shards_modified" ++ newline
    ++ "FROM node_reputation".

(** [GenWhereStatement]; [limit] is a [uint64], printed in decimal by
    [strconv.FormatUint]. *)
Definition GenWhereStatement (limit : Z) (opts : list whereProtoTodo) : string :=
  let where_ := " WHERE" in
  let where_ := fold_left addWhere opts where_ in
  selectString ++ where_ ++ " LIMIT " ++ GoInt.Itoa limit.

(** The columns [GenWhereStatement] knows. *)
Definition knownWhereColumn (col : column) : bool :=
  existsb (String.eqb col)
          [nodeNameColumn; lastSeenColumn; uptimeColumn; auditSuccessColumn; auditFailColumn;
           latencyColumn; amountOfDataStoredColumn; falseClaimsColumn; shardsModifiedColumn].

(** The columns [GenUpdateStatement] knows. *)
Definition knownUpdateColumn (col : column) : bool :=
  existsb (String.eqb col)
          [uptimeColumn; auditSuccessColumn; auditFailColumn; latencyColumn;
           amountOfDataStoredColumn; falseClaimsColumn; shardsModifiedColumn].

End statements.

(** Every counter of the record is a value of [int]. *)
Definition countersInRange (row : NodeReputationRecord) : Prop :=
  GoInt.inRange (uptime row) /\ GoInt.inRange (auditSuccess row) /\
  GoInt.inRange (auditFail row) /\ GoInt.inRange (latency row) /\
  GoInt.inRange (amountOfDataStored row) /\ GoInt.inRange (falseClaims row) /\
  GoInt.inRange (shardsModified row).

(** Concrete records. *)
Module records.

Definition freshAlice : NodeReputationRecord := reputation.NewReputationRow "Bob" "Alice".

(** A later record of the same node, worse in every other column. *)
Definition laterAlice : NodeReputationRecord :=
  {| source := "Bob"; nodeName := "Alice"; timestamp := "2018-06-01 10:00:00.000";
     uptime := 0; auditSuccess := 0; auditFail := 0; latency := 900;
     amountOfDataStored := 0; falseClaims := 7; shardsModified := 2 |}.

(** A record of another node, with modified shards and better in the later
    columns. *)
Definition modifiedCarol : NodeReputationRecord :=
  {| source := "Bob"; nodeName := "Carol"; timestamp := "2018-06-01 10:00:00.000";
     uptime := 99; auditSuccess := 50; auditFail := 0; latency := 1;
     amountOfDataStored := 1000; falseClaims := 0; shardsModified := 1 |}.

End records.

(** * Properties *)

(** ** Strings *)

Module GoStringFacts.
Import GoString.

Lemma IndexByteString_lower (s : string) (c : ascii) : -1 <= IndexByteString s c.
Proof.
  induction s as [|a s IH]; simpl; [lia|].
  destruct (Ascii.eqb a c); [lia|].
  destruct (IndexByteString s c <? 0) eqn:E; lia.
Qed.

Lemma last_lower (s : string) (c : ascii) : -1 <= last s c.
Proof.
  induction s as [|a s IH]; simpl; [lia|].
  destruct (0 <=? last s c) eqn:E; [lia|].
  destruct (Ascii.eqb a c); lia.
Qed.

Lemma IndexByteString_lacks (s : string) (c : ascii) :
  lacks c s = true <-> IndexByteString s c < 0.
Proof.
  induction s as [|a s IH]; simpl.
  - split; [lia | reflexivity].
  - destruct (Ascii.eqb a c); simpl.
    + split; [discriminate | lia].
    + pose proof (IndexByteString_lower s c).
      destruct (IndexByteString s c <? 0) eqn:E.
      * apply Z.ltb_lt in E. split; [lia | intros _; apply IH; exact E].
      * apply Z.ltb_ge in E. split; [intros H1; apply IH in H1; lia | lia].
Qed.

Lemma lacks_IndexByteString (s : string) (c : ascii) :
  lacks c s = true -> (0 <=? IndexByteString s c) = false.
Proof.
  intros H. apply IndexByteString_lacks in H. apply Z.leb_gt. exact H.
Qed.

Lemma has_IndexByteString (s : string) (c : ascii) :
  lacks c s = false -> (0 <=? IndexByteString s c) = true.
Proof.
  intros H. apply Z.leb_le.
  destruct (Z_lt_le_dec (IndexByteString s c) 0) as [L|L]; [|exact L].
  apply IndexByteString_lacks in L. congruence.
Qed.

Lemma lacks_app (c : ascii) (a b : string) :
  lacks c (a ++ b) = lacks c a && lacks c b.
Proof.
  induction a as [|x a IH]; simpl; [reflexivity|].
  rewrite IH. now rewrite andb_assoc.
Qed.

Lemma len_app (a b : string) : len (a ++ b) = len a + len b.
Proof.
  unfold len. induction a as [|x a IH]; simpl String.length; [lia|]. lia.
Qed.

Lemma append_assoc (a b c : string) : (a ++ b) ++ c = a ++ (b ++ c).
Proof. induction a as [|x a IH]; simpl; [reflexivity | now rewrite IH]. Qed.

Lemma len_cons (x : ascii) (a : string) : len (String x a) = len a + 1.
Proof. unfold len. cbn [String.length]. lia. Qed.

Lemma len_nonneg (a : string) : 0 <= len a.
Proof. unfold len. lia. Qed.

Lemma drop_app (a b : string) : drop (String.length a) (a ++ b) = b.
Proof. induction a as [|x a IH]; simpl; [now destruct b | exact IH]. Qed.

Lemma take_app (a b : string) : take (String.length a) (a ++ b) = a.
Proof. induction a as [|x a IH]; simpl; [reflexivity | now rewrite IH]. Qed.

Lemma slice_from_app (a b : string) : slice_from (a ++ b) (len a) = b.
Proof. unfold slice_from, len. rewrite Nat2Z.id. apply drop_app. Qed.

Lemma slice_prefix (a b : string) : slice (a ++ b) 0 (len a) = a.
Proof.
  unfold slice, len. rewrite Z.sub_0_r, Nat2Z.id. simpl. apply take_app.
Qed.

(** The first occurrence of [c] in [a ++ c :: b] when [a] has none. *)
Lemma IndexByteString_app (a b : string) (c : ascii) :
  lacks c a = true -> IndexByteString (a ++ String c b) c = len a.
Proof.
  unfold len. induction a as [|x a IH]; simpl; intros H.
  - now rewrite Ascii.eqb_refl.
  - apply andb_prop in H as [H1 H2]. apply negb_true_iff in H1.
    rewrite H1, (IH H2).
    destruct (Z.of_nat (String.length a) <? 0) eqn:E; [apply Z.ltb_lt in E|]; lia.
Qed.

(** The last occurrence of [c] in [a ++ c :: b] when [b] has none. *)
Lemma last_app (a b : string) (c : ascii) :
  lacks c b = true -> last (a ++ String c b) c = len a.
Proof.
  intros H. unfold len.
  assert (Hb : last b c = -1).
  { clear a. induction b as [|x b IH]; simpl in *; [reflexivity|].
    apply andb_prop in H as [H1 H2]. apply negb_true_iff in H1.
    rewrite (IH H2), H1. reflexivity. }
  induction a as [|x a IH]; simpl.
  - now rewrite Hb, Ascii.eqb_refl.
  - rewrite IH.
    destruct (0 <=? Z.of_nat (String.length a)) eqn:E; [|apply Z.leb_gt in E]; lia.
Qed.

End GoStringFacts.

(** ** Integers and their decimal text *)

Module GoIntFacts.
Import GoString GoInt.

Lemma lacks_string_of_uint (c : ascii) (d : Decimal.uint) :
  isDigit c = false -> lacks c (NilEmpty.string_of_uint d) = true.
Proof.
  unfold isDigit. cbn [existsb]. intros H.
  repeat (apply orb_false_elim in H as [?E H]).
  induction d; cbn [lacks NilEmpty.string_of_uint]; trivial;
    rewrite IHd, andb_true_r; apply negb_true_iff;
    rewrite Ascii.eqb_sym; assumption.
Qed.

(** [Itoa] writes digits and at most a minus sign. *)
Lemma lacks_Itoa (c : ascii) (n : Z) :
  isDigit c = false -> c <> "-"%char -> lacks c (Itoa n) = true.
Proof.
  intros Hd Hm. unfold Itoa.
  assert (U : forall d, lacks c (NilZero.string_of_uint d) = true).
  { intros d. destruct d; try apply (lacks_string_of_uint c _ Hd).
    cbn [NilZero.string_of_uint lacks]. rewrite andb_true_r. apply negb_true_iff.
    unfold isDigit in Hd. cbn [existsb] in Hd.
    apply orb_false_elim in Hd as [E _]. now rewrite Ascii.eqb_sym. }
  destruct (Z.to_int n) as [d|d]; cbn [NilZero.string_of_int lacks]; [apply U|].
  rewrite U, andb_true_r. apply negb_true_iff.
  apply Ascii.eqb_neq. congruence.
Qed.

Lemma digits_of_pos (p : positive) :
  digits (NilZero.string_of_uint (Pos.to_uint p)) = Some (Z.pos p).
Proof.
  unfold digits. rewrite NilZero.usu.
  - simpl. f_equal. unfold Z.of_uint. rewrite DecimalPos.Unsigned.of_to. reflexivity.
  - intros E. apply (f_equal Pos.of_uint) in E.
    rewrite DecimalPos.Unsigned.of_to in E. discriminate.
Qed.

End GoIntFacts.

Module GoIntRoundTrip.
Import GoString GoInt GoIntFacts.

(** Parsing what [Itoa] printed gives the number back, without error. *)
Lemma Atoi_Itoa (n : Z) : inRange n -> Atoi (Itoa n) = (n, false).
Proof.
  unfold inRange, minInt, maxInt. intros R.
  assert (K : forall v, - 2 ^ 63 <= v <= 2 ^ 63 - 1 ->
            (if v <? - 2 ^ 63 then (- 2 ^ 63, true)
             else if 2 ^ 63 - 1 <? v then (2 ^ 63 - 1, true)
             else (v, false)) = (v, false)).
  { intros v Hv.
    destruct (v <? - 2 ^ 63) eqn:E1; [apply Z.ltb_lt in E1; lia|].
    destruct (2 ^ 63 - 1 <? v) eqn:E2; [apply Z.ltb_lt in E2; lia|].
    reflexivity. }
  destruct n as [|p|p].
  - reflexivity.
  - unfold Itoa. cbn [Z.to_int NilZero.string_of_int].
    pose proof (digits_of_pos p) as D.
    assert (Lm : lacks "-" (NilZero.string_of_uint (Pos.to_uint p)) = true).
    { destruct (Pos.to_uint p); try (apply lacks_string_of_uint; reflexivity).
      reflexivity. }
    assert (Lp : lacks "+" (NilZero.string_of_uint (Pos.to_uint p)) = true).
    { destruct (Pos.to_uint p); try (apply lacks_string_of_uint; reflexivity).
      reflexivity. }
    destruct (NilZero.string_of_uint (Pos.to_uint p)) as [|c s] eqn:Es.
    + discriminate D.
    + cbn [lacks] in Lm, Lp.
      apply andb_prop in Lm as [Lm _]. apply andb_prop in Lp as [Lp _].
      apply negb_true_iff in Lm, Lp.
      unfold Atoi. rewrite Lm, Lp, D. unfold minInt, maxInt. apply K. exact R.
  - unfold Itoa. cbn [Z.to_int NilZero.string_of_int].
    unfold Atoi. rewrite Ascii.eqb_refl, digits_of_pos.
    unfold minInt, maxInt. apply K. exact R.
Qed.

End GoIntRoundTrip.

(** ** Host and port *)

Module NetFacts.
Import GoString GoStringFacts Net.

Lemma drop_add (a b : string) (n : nat) :
  drop (String.length a + n) (a ++ b) = drop n b.
Proof. induction a as [|x a IH]; simpl; [reflexivity | exact IH]. Qed.

Lemma byteIs_0_app (a b : string) (c d : ascii) :
  lacks c a = true -> d <> c -> byteIs (a ++ String d b) 0 c = false.
Proof.
  intros H N. unfold byteIs. destruct a as [|x a]; simpl.
  - apply Ascii.eqb_neq. exact N.
  - simpl in H. apply andb_prop in H as [H _]. now apply negb_true_iff in H.
Qed.

(** Splitting a joined pair gives the pair back, provided the host has no
    bracket and the port neither a colon nor a bracket. *)
Lemma SplitHostPort_JoinHostPort (host port : string) :
  lacks "[" host = true -> lacks "]" host = true ->
  lacks ":" port = true -> lacks "[" port = true -> lacks "]" port = true ->
  SplitHostPort (JoinHostPort host port) = inl (host, port).
Proof.
  intros Hl Hr Pc Pl Pr.
  pose proof (len_nonneg host) as Hn.
  unfold JoinHostPort.
  destruct (lacks ":" host) eqn:Hc.
  - rewrite (lacks_IndexByteString _ _ Hc).
    change (host ++ ":" ++ port) with (host ++ String ":" port).
    unfold SplitHostPort.
    rewrite (last_app host port ":" Pc).
    replace (len host <? 0) with false by (symmetry; apply Z.ltb_ge; lia).
    rewrite (byteIs_0_app host port "[" ":" Hl) by discriminate.
    rewrite !slice_prefix, (lacks_IndexByteString _ _ Hc).
    change (slice_from (host ++ String ":" port) 0) with (host ++ String ":" port).
    rewrite !lacks_IndexByteString
      by (rewrite lacks_app; cbn [lacks]; rewrite ?Hl, ?Hr, ?Pl, ?Pr; reflexivity).
    unfold slice_from, len.
    replace (Z.to_nat (Z.of_nat (String.length host) + 1))
      with (String.length host + 1)%nat by lia.
    rewrite drop_add. reflexivity.
  - rewrite (has_IndexByteString _ _ Hc).
    change ("[" ++ host ++ "]:" ++ port)
      with (String "[" (host ++ String "]" (String ":" port))).
    set (hostport := String "[" (host ++ String "]" (String ":" port))).
    assert (Hi : last hostport ":" = len host + 2).
    { replace hostport with (String "[" (host ++ "]") ++ String ":" port).
      - rewrite (last_app _ _ _ Pc), len_cons, len_app, len_cons.
        change (len "") with 0. lia.
      - unfold hostport. cbn [append]. f_equal.
        rewrite append_assoc. reflexivity. }
    assert (He : IndexByteString hostport "]" = len host + 1).
    { unfold hostport. cbn [IndexByteString].
      replace (Ascii.eqb "[" "]") with false by reflexivity.
      rewrite (IndexByteString_app _ _ _ Hr).
      replace (len host <? 0) with false by (symmetry; apply Z.ltb_ge; lia).
      reflexivity. }
    assert (Hlen : len hostport = len host + len port + 3).
    { unfold hostport. rewrite len_cons, len_app, !len_cons. lia. }
    pose proof (len_nonneg port) as Pn.
    unfold SplitHostPort. rewrite Hi, He.
    replace (len host + 2 <? 0) with false by (symmetry; apply Z.ltb_ge; lia).
    replace (byteIs hostport 0 "[") with true by reflexivity.
    replace (len host + 1 <? 0) with false by (symmetry; apply Z.ltb_ge; lia).
    replace (len host + 1 + 1 =? len hostport) with false
      by (symmetry; apply Z.eqb_neq; lia).
    replace (len host + 1 + 1 =? len host + 2) with true
      by (symmetry; apply Z.eqb_eq; lia).
    assert (S1 : slice_from hostport 1 = host ++ String "]" (String ":" port))
      by reflexivity.
    assert (S2 : slice_from hostport (len host + 1 + 1) = String ":" port).
    { unfold slice_from, len.
      replace (Z.to_nat (Z.of_nat (String.length host) + 1 + 1))
        with (S (String.length host + 1)) by lia.
      unfold hostport. cbn [drop]. rewrite drop_add. reflexivity. }
    assert (S3 : slice_from hostport (len host + 2 + 1) = port).
    { unfold slice_from, len.
      replace (Z.to_nat (Z.of_nat (String.length host) + 2 + 1))
        with (S (String.length host + 2)) by lia.
      unfold hostport. cbn [drop]. rewrite drop_add. reflexivity. }
    assert (S4 : slice hostport 1 (len host + 1) = host).
    { unfold slice, len.
      replace (Z.to_nat (Z.of_nat (String.length host) + 1 - 1))
        with (String.length host) by lia.
      unfold hostport. cbn [Z.to_nat Pos.to_nat Pos.iter_op Nat.add drop].
      apply take_app. }
    rewrite S1, S2, S3, S4.
    rewrite !lacks_IndexByteString
      by (rewrite ?lacks_app; cbn [lacks]; rewrite ?Hl, ?Hr, ?Pl, ?Pr; reflexivity).
    reflexivity.
Qed.

(** A host with a colon joined to a port without brackets cannot be split
    again: the text has too many colons. *)
Lemma SplitHostPort_unbracketed (host port : string) :
  lacks ":" host = false -> lacks "[" host = true ->
  lacks ":" port = true ->
  SplitHostPort (host ++ ":" ++ port)
    = inr {| Err := tooManyColons; Addr := host ++ ":" ++ port |}.
Proof.
  intros Hc Hl Pc.
  pose proof (len_nonneg host) as Hn.
  change (host ++ ":" ++ port) with (host ++ String ":" port).
  unfold SplitHostPort.
  rewrite (last_app host port ":" Pc).
  replace (len host <? 0) with false by (symmetry; apply Z.ltb_ge; lia).
  rewrite (byteIs_0_app host port "[" ":" Hl) by discriminate.
  rewrite slice_prefix, (has_IndexByteString _ _ Hc). reflexivity.
Qed.

End NetFacts.

(** ** The node conversions *)

Module ConversionFacts.
Import proto kademlia.

Section WithIP.
Context {netip : NetIP}.

Lemma assign_middle {A : Type} (done rest : list A) (y x : A) :
  assign (done ++ y :: rest) (List.length done) x = (done ++ x :: rest)%list.
Proof. induction done as [|d done IH]; simpl; [reflexivity | now rewrite IH]. Qed.

Lemma snoc_app {A : Type} (done : list A) (x : A) (rest : list A) :
  (done ++ x :: rest = (done ++ [x]) ++ rest)%list.
Proof. now rewrite <- app_assoc. Qed.

Lemma snoc_length {A : Type} (done : list A) (x : A) :
  List.length (done ++ [x]) = S (List.length done).
Proof. rewrite length_app. simpl. lia. Qed.

(** The loop fills the slice from left to right. *)
Lemma convertNetworkNodes_loop_fills (n : list NetworkNode) :
  forall done : list (option Node),
    convertNetworkNodes_loop (List.length done) n (done ++ make (List.length n))
    = (done ++ map (fun v => Some (convertNetworkNode v)) n)%list.
Proof.
  unfold make.
  induction n as [|v n IH]; intros done; simpl.
  - reflexivity.
  - rewrite assign_middle, snoc_app.
    rewrite <- (snoc_length done (Some (convertNetworkNode v))).
    rewrite IH, <- app_assoc. reflexivity.
Qed.

Lemma convertNetworkNodes_map (n : list NetworkNode) :
  convertNetworkNodes n = map (fun v => Some (convertNetworkNode v)) n.
Proof. exact (convertNetworkNodes_loop_fills n []). Qed.

Lemma convertProtoNodes_loop_fills (n : list Node) :
  forall done : list (option NetworkNode),
    (forall v, In v n -> exists node, convertProtoNode v = inl node) ->
    convertProtoNodes_loop (List.length done) n (done ++ make (List.length n))
    = ((done ++ map converted n)%list, None).
Proof.
  unfold make.
  induction n as [|v n IH]; intros done Hok; simpl.
  - reflexivity.
  - destruct (Hok v (or_introl eq_refl)) as [node Hv].
    rewrite Hv.
    rewrite assign_middle, snoc_app.
    rewrite <- (snoc_length done (Some node)).
    rewrite IH, <- app_assoc; [|intros u Hu; apply Hok; now right].
    unfold converted at 2. rewrite Hv. reflexivity.
Qed.

(** The loop stops at the first node that does not convert. *)
Lemma convertProtoNodes_loop_stops (pre post : list Node) (v : Node) (err : error) :
  (forall u, In u pre -> exists node, convertProtoNode u = inl node) ->
  convertProtoNode v = inr err ->
  forall i nn, convertProtoNodes_loop i (pre ++ v :: post) nn = ([], Some err).
Proof.
  induction pre as [|u pre IH]; intros Hok Hv i nn; simpl.
  - now rewrite Hv.
  - destruct (Hok u (or_introl eq_refl)) as [node Hu]. rewrite Hu.
    apply IH; [|exact Hv]. intros x Hx. apply Hok. now right.
Qed.

(** Either every node converts, or there is a first one that does not. *)
Lemma first_failure (n : list Node) :
  (forall v, In v n -> exists node, convertProtoNode v = inl node) \/
  (exists pre v post err,
      n = (pre ++ v :: post)%list /\
      (forall u, In u pre -> exists node, convertProtoNode u = inl node) /\
      convertProtoNode v = inr err).
Proof.
  induction n as [|v n IH].
  - left. intros v [].
  - destruct (convertProtoNode v) as [node|err] eqn:Hv.
    + destruct IH as [IH | (pre & u & post & err & -> & Hpre & Hu)].
      * left. intros u [<- | Hu]; eauto.
      * right. exists (v :: pre), u, post, err. repeat split; trivial.
        intros x [<- | Hx]; eauto.
    + right. exists [], v, n, err. repeat split; trivial. intros u [].
Qed.

End WithIP.

End ConversionFacts.

(** ** The Kademlia wrapper *)

Module KademliaFacts.
Import proto kademlia mock_overlay examples.
Import GoString GoStringFacts.

Section WithIP.
Context {netip : NetIP}.

(** *** The scan of [FindNode] *)

Lemma FindNode_range_found (nodes : list NetworkNode) (target : NodeID) (v : NetworkNode) :
  find (fun v => String.eqb (ID v) target) nodes = Some v ->
  FindNode_range nodes target
  = ({| Id := target;
        Address := Some {| Transport := NodeTransport_TCP;
                           na_Address := Sprintf_host_port (IP_String (IP v)) (Port v) |} |},
     None).
Proof.
  induction nodes as [|u nodes IH]; simpl; [discriminate|].
  destruct (String.eqb (ID u) target) eqn:E.
  - intros [= ->]. apply String.eqb_eq in E. now rewrite E.
  - exact IH.
Qed.

Lemma FindNode_range_missing (nodes : list NetworkNode) (target : NodeID) :
  find (fun v => String.eqb (ID v) target) nodes = None ->
  FindNode_range nodes target = (emptyNode, Some (NodeErr_New "node not found")).
Proof.
  induction nodes as [|u nodes IH]; simpl; [reflexivity|].
  destruct (String.eqb (ID u) target); [discriminate | exact IH].
Qed.

Lemma find_ID_some (nodes : list NetworkNode) (target : NodeID) :
  (exists v, In v nodes /\ ID v = target) ->
  exists v, find (fun v => String.eqb (ID v) target) nodes = Some v.
Proof.
  intros (v & Hin & Hid).
  destruct (find (fun v => String.eqb (ID v) target) nodes) as [u|] eqn:F; [eauto|].
  apply (find_none _ _ F) in Hin. apply String.eqb_neq in Hin. contradiction.
Qed.

Lemma find_ID_none (nodes : list NetworkNode) (target : NodeID) :
  (forall v, In v nodes -> ID v <> target) ->
  find (fun v => String.eqb (ID v) target) nodes = None.
Proof.
  intros H.
  destruct (find (fun v => String.eqb (ID v) target) nodes) as [u|] eqn:F; [|reflexivity].
  apply find_some in F as [Hin E]. apply String.eqb_eq in E.
  now apply H in Hin.
Qed.

(** C1 (amended).  [FindNode] hands the target to the search of the
    library.  When that search returns an error, [FindNode] returns the
    empty node and this very error.  When it returns without error,
    [FindNode] returns without error exactly when one of the reported
    nodes has the target as its ID; the node returned then has the target
    as its [Id] and carries the address of the first such node; otherwise
    the result is the empty node and the error "node not found" of the
    class [NodeErr].  In no case is a node with another ID returned. *)
Theorem FindNode_result (k : Kademlia) (target : NodeID) :
  let nodes := fst (dht_FindNode (dht k) target) in
  let err := snd (dht_FindNode (dht k) target) in
  let r := fst (FindNode k target) in
  (forall e, err = Some e -> r = (emptyNode, Some e)) /\
  (snd r = None <-> err = None /\ exists v, In v nodes /\ ID v = target) /\
  (snd r = None ->
     exists v, find (fun v => String.eqb (ID v) target) nodes = Some v /\
       fst r = {| Id := target;
                  Address := Some {| Transport := NodeTransport_TCP;
                                     na_Address := Sprintf_host_port (IP_String (IP v)) (Port v) |} |}) /\
  (err = None -> (forall v, In v nodes -> ID v <> target) ->
     r = (emptyNode, Some (NodeErr_New "node not found"))) /\
  (fst r = emptyNode \/ Id (fst r) = target).
Proof.
  unfold FindNode. cbn zeta.
  destruct (dht_FindNode (dht k) target) as [nodes [e|]]; cbn [fst snd].
  - split; [|split; [|split; [|split]]].
    + now intros e' [= ->].
    + split; [discriminate | intros [[=] _]].
    + discriminate.
    + discriminate.
    + now left.
  - destruct (find (fun v => String.eqb (ID v) target) nodes) as [v|] eqn:F.
    + rewrite (FindNode_range_found _ _ _ F). cbn [fst snd].
      pose proof (find_some _ _ F) as [Hin E]. apply String.eqb_eq in E.
      split; [|split; [|split; [|split]]].
      * discriminate.
      * split; eauto.
      * eauto.
      * intros _ Hno. now apply Hno in Hin.
      * now right.
    + rewrite (FindNode_range_missing _ _ F). cbn [fst snd].
      split; [|split; [|split; [|split]]].
      * discriminate.
      * split; [discriminate|].
        intros [_ Hex]. apply find_ID_some in Hex as [v Hv]. congruence.
      * discriminate.
      * reflexivity.
      * now left.
Qed.

(** C2 (amended).  [Bootstrap] is the bootstrap of the library and
    nothing else: it returns what the library returns, error or not,
    whatever seed list the receiver holds, and it leaves the receiver as
    it was. *)
Theorem Bootstrap_delegates (k : Kademlia) (seeds : list Node) :
  fst (Bootstrap k) = dht_Bootstrap (dht k) /\
  fst (Bootstrap (withBootstrapNodes k seeds)) = fst (Bootstrap k) /\
  (fst (Bootstrap k) <> None <-> dht_Bootstrap (dht k) <> None) /\
  snd (Bootstrap k) = k.
Proof. cbn. split; [|split; [|split]]; reflexivity. Qed.

(** C3 (amended).  [Ping] returns without error exactly when the address
    of the node splits into host and port and the ping of the library
    answers true without error; it then returns the node it was given.
    In every other case, an unanswered ping among them, it returns the
    empty node and an error, which for an unanswered ping is "node
    unavailable" of the class [NodeErr].  [Ping] records nothing: it
    leaves the receiver, routing table included, as it was. *)
Theorem Ping_result (k : Kademlia) (node : Node) :
  let r := fst (Ping k node) in
  (snd r = None <->
     exists n, convertProtoNode node = inl n /\ dht_Ping (dht k) n = (true, None)) /\
  (snd r = None -> fst r = node) /\
  (snd r <> None -> fst r = emptyNode) /\
  (forall n, convertProtoNode node = inl n -> dht_Ping (dht k) n = (false, None) ->
     r = (emptyNode, Some (NodeErr_New "node unavailable"))) /\
  snd (Ping k node) = k.
Proof.
  unfold Ping. cbn zeta.
  destruct (convertProtoNode node) as [n|err] eqn:C.
  - destruct (dht_Ping (dht k) n) as [[|] [e|]] eqn:P; cbn [fst snd];
      (split; [|split; [|split; [|split]]]); try discriminate; try congruence;
      try reflexivity.
    all: try (split; [discriminate | intros (n' & [= <-] & Q); congruence]).
    all: try (intros n' [= <-] Q; congruence).
    split; eauto.
  - cbn [fst snd]. split; [|split; [|split; [|split]]];
      try discriminate; try congruence; try reflexivity.
    split; [discriminate | intros (n' & [=] & _)].
Qed.

(** *** The wire shape *)

(** [convertNetworkNode] gives the wire shape whenever the IP prints
    without brackets. *)
Lemma convertNetworkNode_wireShape (v : NetworkNode) :
  lacks "[" (IP_String (IP v)) = true -> lacks "]" (IP_String (IP v)) = true ->
  wireShape v (convertNetworkNode v).
Proof.
  intros Hl Hr. split; [reflexivity|].
  eexists. split; [reflexivity|]. split; [reflexivity|].
  cbn [na_Address].
  apply NetFacts.SplitHostPort_JoinHostPort; trivial;
    apply GoIntFacts.lacks_Itoa; (reflexivity || discriminate).
Qed.

(** The match branch of [FindNode] gives it only when the IP prints
    without a colon. *)
Lemma FindNode_range_wireShape (nodes : list NetworkNode) (v : NetworkNode) :
  find (fun u => String.eqb (ID u) (ID v)) nodes = Some v ->
  lacks "[" (IP_String (IP v)) = true -> lacks "]" (IP_String (IP v)) = true ->
  lacks ":" (IP_String (IP v)) = true ->
  wireShape v (fst (FindNode_range nodes (ID v))).
Proof.
  intros F Hl Hr Hc. rewrite (FindNode_range_found _ _ _ F). cbn [fst].
  split; [reflexivity|].
  eexists. split; [reflexivity|]. split; [reflexivity|].
  cbn [na_Address]. unfold Sprintf_host_port.
  pose proof (NetFacts.SplitHostPort_JoinHostPort
                (IP_String (IP v)) (GoInt.Itoa (Port v)) Hl Hr) as S.
  unfold Net.JoinHostPort in S. rewrite (lacks_IndexByteString _ _ Hc) in S.
  apply S; apply GoIntFacts.lacks_Itoa; (reflexivity || discriminate).
Qed.

Lemma FindNode_range_unsplittable (nodes : list NetworkNode) (v : NetworkNode) :
  find (fun u => String.eqb (ID u) (ID v)) nodes = Some v ->
  lacks "[" (IP_String (IP v)) = true ->
  lacks ":" (IP_String (IP v)) = false ->
  exists e, convertProtoNode (fst (FindNode_range nodes (ID v))) = inr e.
Proof.
  intros F Hl Hc. rewrite (FindNode_range_found _ _ _ F). cbn [fst].
  unfold convertProtoNode, GetAddress, NodeAddress_GetAddress, Sprintf_host_port.
  cbn [Address na_Address].
  rewrite NetFacts.SplitHostPort_unbracketed; eauto.
  apply GoIntFacts.lacks_Itoa; (reflexivity || discriminate).
Qed.

(** C4 (amended).  [convertNetworkNodes] returns a list as long as its
    input whose element at index [i] is the conversion of the input
    element at index [i].  [convertProtoNodes] does so when every input
    node converts; when one does not, it returns the nil list and the
    error of the first such node.  The [BulkLookup] of the mock client
    returns the list its controller was programmed with, as it is,
    whatever the sequence of IDs it is given. *)
Theorem conversions_keep_positions :
  (forall n : list NetworkNode,
      List.length (convertNetworkNodes n) = List.length n /\
      forall i v, nth_error n i = Some v ->
                  nth_error (convertNetworkNodes n) i = Some (Some (convertNetworkNode v))) /\
  (forall n : list Node,
      let r := convertProtoNodes n in
      (snd r = None <-> forall v, In v n -> exists node, convertProtoNode v = inl node) /\
      (snd r = None ->
         List.length (fst r) = List.length n /\
         forall i v, nth_error n i = Some v ->
                     exists node, convertProtoNode v = inl node /\
                                  nth_error (fst r) i = Some (Some node)) /\
      (forall err, snd r = Some err ->
         fst r = [] /\
         exists pre v post,
           n = (pre ++ v :: post)%list /\
           (forall u, In u pre -> exists node, convertProtoNode u = inl node) /\
           convertProtoNode v = inr err)) /\
  (forall (l : list (option Node)) (ctx : iface) (ids : list string),
      BulkLookup (programmed l) ctx ids = (l, None)).
Proof.
  split; [|split].
  - intros n. rewrite ConversionFacts.convertNetworkNodes_map. split.
    + apply length_map.
    + intros i v H. rewrite nth_error_map, H. reflexivity.
  - intros n. cbn zeta. unfold convertProtoNodes.
    destruct (ConversionFacts.first_failure n)
      as [Hok | (pre & v & post & err & -> & Hpre & Hv)].
    + pose proof (ConversionFacts.convertProtoNodes_loop_fills n [] Hok) as E.
      cbn [List.length app] in E. rewrite E.
      cbn [fst snd]. split; [|split].
      * split; [intros _; exact Hok | reflexivity].
      * intros _. split; [apply length_map|].
        intros i v H. destruct (Hok v (nth_error_In _ _ H)) as [node Hn].
        exists node. split; [exact Hn|].
        rewrite nth_error_map, H. cbn. unfold converted. now rewrite Hn.
      * discriminate.
    + rewrite (ConversionFacts.convertProtoNodes_loop_stops pre post v err Hpre Hv).
      cbn [fst snd]. split; [|split].
      * split; [discriminate|].
        intros H. destruct (H v) as [node Hn]; [|congruence].
        apply in_or_app. right. now left.
      * discriminate.
      * intros e [= <-]. split; [reflexivity|]. exists pre, v, post. auto.
  - reflexivity.
Qed.

(** C6.  A node with a well-formed IP and a port in the range of [int]
    survives the way to the wire and back: [convertProtoNode] succeeds on
    what [convertNetworkNode] made of it and gives a node with the same
    ID, the same host and the same port.  [convertProtoNode] is total, and
    it returns an error exactly when the address of the node does not
    split into host and port. *)
Theorem convertProtoNode_convertNetworkNode :
  (forall v : NetworkNode,
      wellFormedIP (IP v) -> GoInt.inRange (Port v) ->
      exists nn, convertProtoNode (convertNetworkNode v) = inl nn /\
                 ID nn = ID v /\
                 IP_String (IP nn) = IP_String (IP v) /\
                 Port nn = Port v) /\
  (forall n : Node,
      (exists nn, convertProtoNode n = inl nn) \/ (exists err, convertProtoNode n = inr err)) /\
  (forall n : Node,
      (exists err, convertProtoNode n = inr err) <->
      (exists e, Net.SplitHostPort (NodeAddress_GetAddress (GetAddress n)) = inr e)).
Proof.
  split; [|split].
  - intros v (Hl & Hr & Hp) R.
    unfold convertProtoNode, convertNetworkNode, GetAddress, NodeAddress_GetAddress, GetId.
    cbn [Address na_Address Id].
    rewrite NetFacts.SplitHostPort_JoinHostPort; trivial;
      try (apply GoIntFacts.lacks_Itoa; (reflexivity || discriminate)).
    eexists. split; [reflexivity|]. cbn [ID IP Port NewNetworkNode].
    rewrite (GoIntRoundTrip.Atoi_Itoa _ R). auto.
  - intros n. destruct (convertProtoNode n); eauto.
  - intros n. unfold convertProtoNode.
    destruct (Net.SplitHostPort (NodeAddress_GetAddress (GetAddress n))) as [[h p]|e].
    + split; intros [x [=]].
    + split; eauto.
Qed.

End WithIP.

#[local] Existing Instance TextIP.

Lemma convertProtoNode_convertNetworkNode_witness :
  wellFormedIP (IP nodeV4) /\ GoInt.inRange (Port nodeV4) /\
  exists nn, convertProtoNode (convertNetworkNode nodeV4) = inl nn /\
             ID nn = ID nodeV4 /\
             IP_String (IP nn) = IP_String (IP nodeV4) /\
             Port nn = Port nodeV4.
Proof.
  assert (W : wellFormedIP (IP nodeV4)) by (repeat split).
  assert (R : GoInt.inRange (Port nodeV4)) by (split; discriminate).
  split; [exact W|]. split; [exact R|].
  exact (proj1 convertProtoNode_convertNetworkNode nodeV4 W R).
Defined.

(** The search failed: the error of [FindNode] is the one of the library,
    not "node not found". *)
Lemma FindNode_search_error :
  let k := newKademlia failingDHT [] in
  (forall v, In v (fst (dht_FindNode (dht k) "n4")) -> ID v <> "n4") /\
  fst (FindNode k "n4") = (emptyNode, Some (DHTErr "no route to host")) /\
  snd (fst (FindNode k "n4")) <> Some (NodeErr_New "node not found").
Proof. cbn. split; [intros v []|]. split; [reflexivity | discriminate]. Qed.

(** An empty seed list and a library whose bootstrap returns nil:
    [Bootstrap] returns nil. *)
Lemma Bootstrap_empty_seed_list :
  let k := newKademlia silentDHT [] in
  bootstrapNodes k = [] /\ fst (Bootstrap k) = None.
Proof. split; reflexivity. Qed.

(** An unanswered ping leaves the receiver as it was, however often it is
    repeated, so nothing that is read from the receiver counts the failures
    of a contact. *)
Lemma Ping_counts_nothing :
  let k := newKademlia silentDHT [] in
  Ping k protoV4 = ((emptyNode, Some (NodeErr_New "node unavailable")), k) /\
  (forall n : nat, Nat.iter n (fun k => snd (Ping k protoV4)) k = k) /\
  ~ exists failures : Kademlia -> Node -> nat,
      forall (k : Kademlia) (node : Node) (n : NetworkNode),
        convertProtoNode node = inl n -> dht_Ping (dht k) n = (false, None) ->
        failures (snd (Ping k node)) node = S (failures k node).
Proof.
  cbn zeta. split; [reflexivity|]. split.
  - induction n as [|n IH]; [reflexivity|].
    change (snd (Ping (Nat.iter n (fun k => snd (Ping k protoV4))
                                (newKademlia silentDHT [])) protoV4)
            = newKademlia silentDHT []).
    now rewrite IH.
  - intros [failures H].
    specialize (H (newKademlia silentDHT []) protoV4 nodeV4 eq_refl eq_refl).
    change (Ping (newKademlia silentDHT []) protoV4)
      with ((emptyNode, Some (NodeErr_New "node unavailable")), newKademlia silentDHT []) in H.
    cbn [fst snd] in H. lia.
Qed.

(** One node of two has no port, and a mock is programmed with the empty
    list: neither result has an entry per input. *)
Lemma results_shorter_than_input :
  convertProtoNodes [protoV4; protoNoPort]
    = ([], Some (AddrErr {| Net.Err := "missing port in address"; Net.Addr := "127.0.0.1" |})) /\
  List.length (fst (convertProtoNodes [protoV4; protoNoPort]))
    <> List.length [protoV4; protoNoPort] /\
  List.length (fst (BulkLookup (programmed []) I_ctx ["n4"])) <> List.length ["n4"].
Proof. split; [reflexivity|]. split; discriminate. Qed.

(** C5.  For a node with an IPv6 address the match branch of [FindNode]
    writes the address without brackets: it is not the address
    [convertNetworkNode] writes for the same node, it does not split into
    the host and the port of the node, and [convertProtoNode] rejects the
    node [FindNode] returned. *)
Theorem FindNode_address_of_IPv6_node :
  let k := newKademlia knowingDHT [] in
  let found := fst (fst (FindNode k "n6")) in
  found = {| Id := "n6";
             Address := Some {| Transport := NodeTransport_TCP;
                                na_Address := "::1:8080" |} |} /\
  convertNetworkNode nodeV6
    = {| Id := "n6";
         Address := Some {| Transport := NodeTransport_TCP;
                            na_Address := "[::1]:8080" |} |} /\
  wireShape nodeV6 (convertNetworkNode nodeV6) /\
  ~ wireShape nodeV6 found /\
  convertProtoNode found
    = inr (AddrErr {| Net.Err := "too many colons in address"; Net.Addr := "::1:8080" |}).
Proof.
  cbn zeta. split; [reflexivity|]. split; [reflexivity|]. split; [|split].
  - apply convertNetworkNode_wireShape; reflexivity.
  - intros [_ (a & Ha & _ & Hs)]. cbn in Ha. injection Ha as <-. discriminate Hs.
  - reflexivity.
Qed.

Example FindNode_finds_IPv4_node :
  fst (FindNode (newKademlia knowingDHT []) "n4") = (protoV4, None).
Proof. reflexivity. Qed.

Example Ping_answered :
  fst (Ping (newKademlia knowingDHT []) protoV4) = (protoV4, None).
Proof. reflexivity. Qed.

Example Ping_without_port :
  fst (Ping (newKademlia knowingDHT []) protoNoPort)
  = (emptyNode,
     Some (AddrErr {| Net.Err := "missing port in address"; Net.Addr := "127.0.0.1" |})).
Proof. reflexivity. Qed.

End KademliaFacts.

(** ** The reputation records *)

Module ReputationFacts.

(** The guarded ratio of the later package: the quotient when the total is
    positive, zero otherwise, never a division by zero. *)
Lemma guarded_auditSuccessRatio (row : NodeReputationRecord) :
  let total := GoInt.wrap (auditSuccess row + auditFail row) in
  (0 < total ->
     nodereputation.auditSuccessRatio row
     = GoFloat.Fin (inject_Z (auditSuccess row) / inject_Z total)) /\
  (total <= 0 -> nodereputation.auditSuccessRatio row = GoFloat.Fin 0) /\
  nodereputation.auditSuccessRatio row <> GoFloat.NaN.
Proof.
  cbn zeta. unfold nodereputation.auditSuccessRatio, GoFloat.quo.
  destruct (0 <? GoInt.wrap (auditSuccess row + auditFail row)) eqn:E.
  - apply Z.ltb_lt in E.
    replace (GoInt.wrap (auditSuccess row + auditFail row) =? 0) with false
      by (symmetry; apply Z.eqb_neq; lia).
    split; [reflexivity|]. split; [lia | discriminate].
  - apply Z.ltb_ge in E. split; [lia|]. split; [reflexivity | discriminate].
Qed.

(** The unguarded ratio of [reputation.go] is the quotient whenever the
    total is not zero. *)
Lemma unguarded_auditSuccessRatio (row : NodeReputationRecord) :
  let total := GoInt.wrap (auditSuccess row + auditFail row) in
  total <> 0 ->
  reputation.auditSuccessRatio row
  = GoFloat.Fin (inject_Z (auditSuccess row) / inject_Z total).
Proof.
  cbn zeta. intros H. unfold reputation.auditSuccessRatio, GoFloat.quo.
  apply Z.eqb_neq in H. now rewrite H.
Qed.

(** C9.  On a record without audits, such as the row [naiveReputation] and
    [endianReputation] start from, the method of [reputation.go] divides
    zero by zero and returns NaN, where the function of the later package
    returns 0. *)
Theorem auditSuccessRatio_without_audits :
  let row := reputation.NewReputationRow "self" "identity" in
  auditSuccess row = 0 /\ auditFail row = 0 /\
  reputation.auditSuccessRatio row = GoFloat.NaN /\
  nodereputation.auditSuccessRatio row = GoFloat.Fin 0.
Proof. repeat split. Qed.

Lemma differsOnlyAt_refl (col : column) (row : NodeReputationRecord) :
  differsOnlyAt col row row.
Proof. unfold differsOnlyAt. tauto. Qed.

Ltac frame_case E :=
  apply String.eqb_eq in E; subst;
  unfold differsOnlyAt; cbn;
  repeat split; trivial; intros; trivial; congruence.

(** C10.  In both packages the record [morphism] returns differs from the
    record it was given at most in the field the column selects: [source],
    [nodeName], [timestamp] and every other counter are those of the input.
    The input is a value the function copies; it is not changed. *)
Theorem morphism_frame (row : NodeReputationRecord) (col : column) (op : mutOp) (scalar : Z) :
  differsOnlyAt col row (reputation.morphism row col op scalar) /\
  differsOnlyAt col row (nodereputation.morphism row col op scalar).
Proof.
  unfold reputation.morphism, nodereputation.morphism.
  destruct (String.eqb col uptimeColumn) eqn:E1; [frame_case E1|].
  destruct (String.eqb col auditSuccessColumn) eqn:E2; [frame_case E2|].
  destruct (String.eqb col auditFailColumn) eqn:E3; [frame_case E3|].
  destruct (String.eqb col latencyColumn) eqn:E4; [frame_case E4|].
  destruct (String.eqb col amountOfDataStoredColumn) eqn:E5; [frame_case E5|].
  destruct (String.eqb col falseClaimsColumn) eqn:E6; [frame_case E6|].
  destruct (String.eqb col shardsModifiedColumn) eqn:E7; [frame_case E7|].
  split; apply differsOnlyAt_refl.
Qed.

(** The slice version applies [morphism] to every row, in order. *)
Lemma NodeReputationRecordMorphism_map (rows : list NodeReputationRecord)
    (col : column) (op : mutOp) (scalar : Z) :
  reputation.NodeReputationRecordMorphism rows col op scalar
  = map (fun row => reputation.morphism row col op scalar) rows.
Proof.
  unfold reputation.NodeReputationRecordMorphism.
  assert (G : forall res,
             fold_left (fun res row => (res ++ [reputation.morphism row col op scalar])%list)
                       rows res
             = (res ++ map (fun row => reputation.morphism row col op scalar) rows)%list).
  { induction rows as [|row rows IH]; intros res; cbn [fold_left map].
    - now rewrite app_nil_r.
    - rewrite IH, <- app_assoc. reflexivity. }
  exact (G []).
Qed.

Example morphism_overwrites_uptime :
  reputation.morphism (reputation.NewReputationRow "Bob" "Alice") uptimeColumn overWrite 30
  = set_uptime (reputation.NewReputationRow "Bob" "Alice") 30.
Proof. reflexivity. Qed.

End ReputationFacts.

(** ** The repeat scheduler *)

Module RepeatFacts.
Import repeat.

(** *** Lists *)

Lemma last_cons {A : Type} (a d : A) (l : list A) : List.last (a :: l) d = List.last l a.
Proof.
  revert a d. induction l as [|b l IH]; intros a d; [reflexivity|].
  change (List.last (a :: b :: l) d) with (List.last (b :: l) d).
  now rewrite !(IH b).
Qed.

Lemma combine_In_left {A B : Type} (l1 : list A) (l2 : list B) (a : A) :
  List.length l1 = List.length l2 -> In a l1 -> exists b, In (a, b) (combine l1 l2).
Proof.
  revert l2. induction l1 as [|x l1 IH]; intros [|y l2] L H; simpl in *; try easy.
  destruct H as [-> | H].
  - exists y. now left.
  - destruct (IH l2) as [b Hb]; [lia | exact H |]. exists b. now right.
Qed.

Lemma combine_functional {A B : Type} (l1 : list A) (l2 : list B) (a : A) (b b' : B) :
  NoDup l1 -> In (a, b) (combine l1 l2) -> In (a, b') (combine l1 l2) -> b = b'.
Proof.
  revert l2. induction l1 as [|x l1 IH]; intros [|y l2] N H H'; simpl in *; try easy.
  inversion N as [|? ? Hx N']; subst.
  destruct H as [H | H], H' as [H' | H'].
  - congruence.
  - injection H as -> _. apply in_combine_l in H'. contradiction.
  - injection H' as -> _. apply in_combine_l in H. contradiction.
  - exact (IH l2 N' H H').
Qed.

Lemma NoDup_fst_filter {A B : Type} (f : A * B -> bool) (l : list (A * B)) :
  NoDup (map fst l) -> NoDup (map fst (filter f l)).
Proof.
  induction l as [|p l IH]; simpl; intros N; [constructor|].
  inversion N as [|? ? Hp N']; subst.
  destruct (f p); simpl; [constructor|]; auto.
  intros H. apply Hp. apply in_map_iff in H as (q & E & Hq).
  apply filter_In in Hq as [Hq _]. apply in_map_iff. eauto.
Qed.

Lemma map_fst_combine {A B : Type} (l1 : list A) (l2 : list B) :
  List.length l1 = List.length l2 -> map fst (combine l1 l2) = l1.
Proof.
  revert l2. induction l1 as [|x l1 IH]; intros [|y l2] L; simpl in *; try easy.
  f_equal. apply IH. lia.
Qed.

Lemma map_snd_combine {A B : Type} (l1 : list A) (l2 : list B) :
  List.length l1 = List.length l2 -> map snd (combine l1 l2) = l2.
Proof.
  revert l2. induction l1 as [|x l1 IH]; intros [|y l2] L; simpl in *; try easy.
  f_equal. apply IH. lia.
Qed.

(** A bound for finitely many witnesses. *)
Lemma bounded_witnesses {A : Type} (P : A -> nat -> Prop) (l : list A) :
  (forall a, In a l -> exists r, P a r) ->
  exists R, forall a, In a l -> exists r, (r <= R)%nat /\ P a r.
Proof.
  induction l as [|x l IH]; intros H.
  - exists O. intros a [].
  - destruct (H x (or_introl eq_refl)) as [rx Hx].
    destruct IH as [R HR]; [intros a Ha; apply H; now right|].
    exists (Nat.max rx R). intros a [<- | Ha].
    + exists rx. split; [lia | exact Hx].
    + destruct (HR a Ha) as (r & Hr & Pr). exists r. split; [lia | exact Pr].
Qed.

Section Repeat.
Context {J W : Type} {repeater : Repeater J W}.

(** *** One round *)

Lemma invoke_all_callee (jobs : list J) (w : W) :
  map callee (invoke_all jobs w) = jobs.
Proof.
  revert w. induction jobs as [|job jobs IH]; intros w; simpl; [reflexivity|].
  now rewrite IH.
Qed.

Lemma invoke_all_length (jobs : list J) (w : W) :
  List.length (invoke_all jobs w) = List.length jobs.
Proof. rewrite <- (invoke_all_callee jobs w) at 2. now rewrite length_map. Qed.

(** The loop of the code makes the calls of [invoke_all]: it appends the
    retained jobs and the reported errors and ends in the world the last
    call left. *)
Lemma Repeat_range_calls (jobs : list J) :
  forall (i : Z) (resJobs : list J) (errors : list string) (w : W),
    Repeat_range i jobs resJobs errors w
    = ((resJobs ++ retained (invoke_all jobs w))%list,
       (errors ++ reported i (invoke_all jobs w))%list,
       world_after w (invoke_all jobs w)).
Proof.
  induction jobs as [|job jobs IH]; intros i resJobs errors w.
  - simpl. unfold retained, world_after. simpl. now rewrite !app_nil_r.
  - cbn [Repeat_range invoke_all].
    destruct (job_Repeat job w) as [[again err] w'] eqn:E.
    rewrite IH. cbn [fst snd].
    unfold retained, world_after.
    cbn [filter map reported callee repeat.again failure after].
    rewrite last_cons.
    destruct again, err; cbn [map]; rewrite <- ?app_assoc; reflexivity.
Qed.

(** Each call is the job's [Repeat()] in the world the calls before it
    left. *)
Lemma invoke_all_threads (jobs : list J) :
  forall (w : W) (i : nat) (c : call),
    nth_error (invoke_all jobs w) i = Some c ->
    nth_error jobs i = Some (callee c) /\
    job_Repeat (callee c) (world_after w (firstn i (invoke_all jobs w)))
    = ((again c, failure c), after c).
Proof.
  induction jobs as [|job jobs IH]; intros w i c H.
  - destruct i; discriminate.
  - destruct i as [|i]; cbn [invoke_all nth_error firstn] in *.
    + injection H as <-. cbn. split; [reflexivity|].
      now destruct (job_Repeat job w) as [[? ?] ?].
    + destruct (IH _ _ _ H) as [H1 H2]. split; [exact H1|].
      unfold world_after in *. cbn [map]. rewrite last_cons. exact H2.
Qed.

Lemma Repeat_unfold (fuel : nat) (jobs : list J) (errors : list string) (w : W) :
  Repeat (S fuel) jobs errors w
  = match jobs with
    | [] => Some (errors, w)
    | _ :: _ =>
        let calls := invoke_all jobs w in
        Repeat fuel (retained calls) (errors ++ reported 0 calls)%list
               (world_after w calls)
    end.
Proof.
  destruct jobs as [|job jobs]; [reflexivity|].
  cbn [Repeat]. rewrite Repeat_range_calls.
  replace (Z.of_nat (List.length (job :: jobs)) <=? 0) with false
    by (symmetry; apply Z.leb_gt; cbn [List.length]; lia).
  reflexivity.
Qed.

(** More fuel does not change a result: [None] only ever means that the fuel
    ran out. *)
Lemma Repeat_more_fuel (fuel : nat) :
  forall (jobs : list J) (errors : list string) (w : W) res,
    Repeat fuel jobs errors w = Some res ->
    forall fuel', (fuel <= fuel')%nat -> Repeat fuel' jobs errors w = Some res.
Proof.
  induction fuel as [|fuel IH]; intros jobs errors w res H fuel' L; [discriminate|].
  destruct fuel' as [|fuel']; [lia|].
  rewrite Repeat_unfold in *. destruct jobs as [|job jobs]; [exact H|].
  cbn zeta in *. apply (IH _ _ _ _ H). lia.
Qed.

(** *** A job that always asks to be repeated *)

Lemma always_again_retained (job : J) (jobs : list J) :
  (forall w, fst (fst (job_Repeat job w)) = true) ->
  In job jobs -> forall w, In job (retained (invoke_all jobs w)).
Proof.
  intros A. induction jobs as [|x jobs IH]; intros H w; [easy|].
  unfold retained in *. cbn [invoke_all filter again].
  destruct H as [-> | H].
  - rewrite A. now left.
  - destruct (fst (fst (job_Repeat x w))); [right|]; apply IH; exact H.
Qed.

Lemma always_again_never_returns (job : J) :
  (forall w, fst (fst (job_Repeat job w)) = true) ->
  forall (fuel : nat) (jobs : list J) (errors : list string) (w : W),
    In job jobs -> Repeat fuel jobs errors w = None.
Proof.
  intros A. induction fuel as [|fuel IH]; intros jobs errors w H; [reflexivity|].
  rewrite Repeat_unfold. destruct jobs as [|x jobs]; [easy|].
  cbn zeta. apply IH. now apply always_again_retained.
Qed.

(** *** The rounds *)

Lemma numbered_calls_fst (jobs : list (nat * J)) (w : W) :
  map fst (numbered_calls jobs w) = map fst jobs.
Proof.
  unfold numbered_calls. apply map_fst_combine.
  now rewrite invoke_all_length, !length_map.
Qed.

Lemma numbered_calls_snd (jobs : list (nat * J)) (w : W) :
  map snd (numbered_calls jobs w) = invoke_all (map snd jobs) w.
Proof.
  unfold numbered_calls. apply map_snd_combine.
  now rewrite invoke_all_length, !length_map.
Qed.

(** Without their numbers, the numbered jobs a round retains are the jobs
    the round retains. *)
Lemma numbered_retained_snd (jobs : list (nat * J)) (w : W) :
  map snd (numbered_retained jobs w) = retained (invoke_all (map snd jobs) w).
Proof.
  unfold numbered_retained, retained.
  rewrite <- numbered_calls_snd.
  induction (numbered_calls jobs w) as [|p l IH]; [reflexivity|].
  cbn [filter map]. destruct (again (snd p)); cbn [map snd]; now rewrite IH.
Qed.

Lemma numbered_retained_In (jobs : list (nat * J)) (w : W) (i : nat) :
  In i (map fst (numbered_retained jobs w)) <->
  exists c, In (i, c) (numbered_calls jobs w) /\ again c = true.
Proof.
  unfold numbered_retained. rewrite map_map. cbn [fst]. split.
  - intros H. apply in_map_iff in H as ([j c] & <- & H).
    apply filter_In in H as [H A]. eauto.
  - intros (c & H & A). apply in_map_iff. exists (i, c). split; [reflexivity|].
    apply filter_In. auto.
Qed.

Lemma numbered_retained_NoDup (jobs : list (nat * J)) (w : W) :
  NoDup (map fst jobs) -> NoDup (map fst (numbered_retained jobs w)).
Proof.
  intros N. unfold numbered_retained. rewrite map_map. cbn [fst].
  apply NoDup_fst_filter. now rewrite numbered_calls_fst.
Qed.

Lemma numbered_calls_In (jobs : list (nat * J)) (w : W) (i : nat) :
  In i (map fst jobs) -> exists c, In (i, c) (numbered_calls jobs w).
Proof.
  intros H. unfold numbered_calls. apply combine_In_left; [|exact H].
  now rewrite invoke_all_length, !length_map.
Qed.

(** One more call of [Repeat] over numbered jobs. *)
Lemma Repeat_numbered (fuel : nat) (jobs : list (nat * J)) (errors : list string) (w : W) :
  jobs <> [] ->
  Repeat (S fuel) (map snd jobs) errors w
  = Repeat fuel (map snd (numbered_retained jobs w))
           (errors ++ reported 0 (invoke_all (map snd jobs) w))%list
           (world_after w (invoke_all (map snd jobs) w)).
Proof.
  intros H. rewrite Repeat_unfold, numbered_retained_snd.
  destruct jobs as [|p jobs]; [contradiction | reflexivity].
Qed.

(** If [Repeat] returns, every job was answered false in some round. *)
Lemma returns_then_all_false (fuel : nat) :
  forall (jobs : list (nat * J)) (errors : list string) (w : W) res,
    Repeat fuel (map snd jobs) errors w = Some res ->
    forall i, In i (map fst jobs) ->
              exists r c, In (i, c) (round_calls r jobs w) /\ again c = false.
Proof.
  induction fuel as [|fuel IH]; intros jobs errors w res H i Hi; [discriminate|].
  destruct jobs as [|p jobs]; [easy|].
  rewrite Repeat_numbered in H by discriminate.
  destruct (numbered_calls_In (p :: jobs) w i Hi) as [c Hc].
  destruct (again c) eqn:A.
  - assert (Hi' : In i (map fst (numbered_retained (p :: jobs) w)))
      by (apply numbered_retained_In; eauto).
    destruct (IH _ _ _ _ H i Hi') as (r & c' & Hr & A').
    exists (S r), c'. auto.
  - exists O, c. auto.
Qed.

(** If every job is answered false within [R + 1] rounds, [Repeat]
    returns after at most [R + 2] calls. *)
Lemma all_false_then_returns (R : nat) :
  forall (jobs : list (nat * J)) (errors : list string) (w : W),
    NoDup (map fst jobs) ->
    (forall i, In i (map fst jobs) ->
               exists r, (r <= R)%nat /\
                         exists c, In (i, c) (round_calls r jobs w) /\ again c = false) ->
    exists res, Repeat (R + 2) (map snd jobs) errors w = Some res.
Proof.
  induction R as [|R IH]; intros jobs errors w N H.
  - destruct jobs as [|p jobs]; [eexists; reflexivity|].
    cbn [Nat.add]. rewrite Repeat_numbered by discriminate.
    assert (E : numbered_retained (p :: jobs) w = []).
    { destruct (numbered_retained (p :: jobs) w) as [|[i j] l] eqn:E; [reflexivity|].
      assert (Hi : In i (map fst (numbered_retained (p :: jobs) w)))
        by (rewrite E; now left).
      apply numbered_retained_In in Hi as (c & Hc & A).
      destruct (H i) as (r & Hr & c' & Hc' & A').
      { rewrite <- (numbered_calls_fst _ w). apply in_map_iff. now exists (i, c). }
      replace r with O in Hc' by lia. cbn [round_calls] in Hc'.
      unfold numbered_calls in Hc, Hc'.
      rewrite (combine_functional _ _ _ _ _ N Hc Hc') in A. congruence. }
    rewrite E. eexists. reflexivity.
  - destruct jobs as [|p jobs]; [eexists; reflexivity|].
    cbn [Nat.add]. rewrite Repeat_numbered by discriminate.
    apply IH; [now apply numbered_retained_NoDup|].
    intros i Hi. apply numbered_retained_In in Hi as (c & Hc & A).
    destruct (H i) as (r & Hr & c' & Hc' & A').
    { rewrite <- (numbered_calls_fst _ w). apply in_map_iff. now exists (i, c). }
    destruct r as [|r].
    + cbn [round_calls] in Hc'. unfold numbered_calls in Hc, Hc'.
      rewrite (combine_functional _ _ _ _ _ N Hc Hc') in A. congruence.
    + exists r. split; [lia|]. exists c'. auto.
Qed.

Lemma numbered_fst (jobs : list J) : map fst (numbered jobs) = seq 0 (List.length jobs).
Proof. unfold numbered. apply map_fst_combine. now rewrite length_seq. Qed.

Lemma numbered_snd (jobs : list J) : map snd (numbered jobs) = jobs.
Proof. unfold numbered. apply map_snd_combine. now rewrite length_seq. Qed.

(** [Repeat] returns exactly when every entry of the job list is answered
    false in some round. *)
Lemma terminates_iff (jobs : list J) (errors : list string) (w : W) :
  terminates jobs errors w <->
  forall i, (i < List.length jobs)%nat -> exists r, returns_false_in_round jobs w i r.
Proof.
  unfold terminates, returns_false_in_round. split.
  - intros (fuel & res & H) i Hi.
    rewrite <- (numbered_snd jobs) in H.
    apply (returns_then_all_false fuel _ _ _ _ H).
    rewrite numbered_fst. apply in_seq. lia.
  - intros H.
    destruct (bounded_witnesses
                (fun i r => exists c, In (i, c) (round_calls r (numbered jobs) w)
                                      /\ again c = false)
                (seq 0 (List.length jobs))) as [R HR].
    { intros i Hi. apply in_seq in Hi. apply H. lia. }
    destruct (all_false_then_returns R (numbered jobs) errors w) as [res Hres].
    + rewrite numbered_fst. apply seq_NoDup.
    + rewrite numbered_fst. exact HR.
    + rewrite numbered_snd in Hres. eauto.
Qed.

End Repeat.

Import jobs.

(** The countdown from [n] is asked [n + 1] times, so [Repeat] calls itself
    [n + 2] times. *)
Lemma countdown_rounds (n : nat) (errors : list string) :
  Repeat (n + 1) [tt] errors n = None /\
  Repeat (n + 2) [tt] errors n = Some (errors, O).
Proof.
  revert errors. induction n as [|n IH]; intros errors.
  - split; reflexivity.
  - destruct (IH (errors ++ [])%list) as [H1 H2].
    split; cbn [Nat.add]; rewrite Repeat_unfold; cbn zeta.
    + exact H1.
    + etransitivity; [exact H2 | now rewrite app_nil_r].
Qed.

(** C7.  [Repeat] sets no bound on its rounds.  It returns exactly when
    every entry of the job list is answered false by its [Repeat()] in some
    round; on the empty list it returns the errors it was given; and a list
    with a job whose [Repeat()] always returns true never lets it return.
    For every [n] there is a job, the countdown from [n], on which [Repeat]
    returns, but not before it has called itself [n + 2] times. *)
Theorem Repeat_termination :
  (forall (J W : Type) (repeater : Repeater J W)
          (jobs : list J) (errors : list string) (w : W),
      terminates jobs errors w <->
      forall i, (i < List.length jobs)%nat ->
                exists r, returns_false_in_round jobs w i r) /\
  (forall (J W : Type) (repeater : Repeater J W)
          (errors : list string) (w : W) (fuel : nat),
      Repeat (S fuel) (@nil J) errors w = Some (errors, w)) /\
  (forall (J W : Type) (repeater : Repeater J W) (job : J),
      (forall w, fst (fst (job_Repeat job w)) = true) ->
      forall (jobs : list J) (errors : list string) (w : W),
        In job jobs -> ~ terminates jobs errors w) /\
  (forall n : nat,
      Repeat (n + 1) [tt] [] n = None /\
      Repeat (n + 2) [tt] [] n = Some ([], O)).
Proof.
  split; [|split; [|split]].
  - intros. apply terminates_iff.
  - reflexivity.
  - intros J W repeater job A jobs errors w H (fuel & res & E).
    rewrite (always_again_never_returns job A fuel jobs errors w H) in E.
    discriminate.
  - intros n. apply countdown_rounds.
Qed.

(** C8.  A round of [Repeat] invokes every job of the list once, in list
    order, each in the world the call before it left; the jobs it keeps for
    the next round are those whose call returned true, in the order of the
    calls; it appends one formatted entry to the errors for every call that
    returned an error; then it calls itself on what it kept.  On the empty
    list it returns the errors it has.  The counter of [TestCountUpToTen],
    which starts in state "1", is in state "10" when [Repeat] returns. *)
Theorem Repeat_rounds :
  (forall (J W : Type) (repeater : Repeater J W)
          (jobs : list J) (errors : list string) (w : W) (fuel : nat),
      let calls := invoke_all jobs w in
      map callee calls = jobs /\
      (forall i c, nth_error calls i = Some c ->
                   job_Repeat (callee c) (world_after w (firstn i calls))
                   = ((again c, failure c), after c)) /\
      Repeat_range 0 jobs [] errors w
      = (map callee (filter again calls),
         (errors ++ reported 0 calls)%list,
         world_after w calls) /\
      List.length (reported 0 calls)
      = List.length (filter (fun c => match failure c with Some _ => true | None => false end)
                            calls) /\
      Repeat (S fuel) jobs errors w
      = match jobs with
        | [] => Some (errors, w)
        | _ :: _ => Repeat fuel (map callee (filter again calls))
                           (errors ++ reported 0 calls)%list (world_after w calls)
        end) /\
  (State O heap_CountUpToTen = "1" /\
   exists h, Repeat 10 [O] [] heap_CountUpToTen = Some ([], h) /\
             State O h = "10").
Proof.
  split.
  - intros J W repeater jobs errors w fuel. cbn zeta.
    split; [apply invoke_all_callee|].
    split; [intros i c H; now apply (invoke_all_threads jobs w i c)|].
    split; [rewrite Repeat_range_calls; reflexivity|].
    split; [|apply Repeat_unfold].
    generalize 0 at 1. induction (invoke_all jobs w) as [|c l IH]; intros i; [reflexivity|].
    cbn [reported filter]. destruct (failure c); cbn [List.length]; now rewrite IH.
  - split; [reflexivity|].
    eexists. split; [vm_compute; reflexivity|]. vm_compute. reflexivity.
Qed.

(** The other tests of the counters. *)
Example TestCountDownToZero :
  State O heap_CountDownToZero = "10" /\
  exists h, Repeat 11 [O] [] heap_CountDownToZero = Some ([], h) /\ State O h = "0".
Proof.
  split; [reflexivity|].
  eexists. split; [vm_compute; reflexivity|]. vm_compute. reflexivity.
Qed.

Example TestUpAndDown :
  exists h, Repeat 11 [0; 1]%nat [] heap_UpAndDown = Some ([], h) /\
            State 0%nat h = "10" /\ State 1%nat h = "0".
Proof.
  eexists. split; [vm_compute; reflexivity|]. split; vm_compute; reflexivity.
Qed.

(** The same pointer twice in the list: both entries count on the one
    struct. *)
Example shared_counter :
  exists h, Repeat 6 [0; 0]%nat [] heap_CountUpToTen = Some ([], h) /\
            State 0%nat h = "11".
Proof.
  eexists. split; [vm_compute; reflexivity|]. vm_compute. reflexivity.
Qed.

Example Sprintf_error_text :
  Sprintf_error 3 "Ten" "7" "disk full"
  = "error at index 3 for job Ten with state 7 err disk full".
Proof. reflexivity. Qed.

End RepeatFacts.

(** ** More on the repeat scheduler *)

Module RepeatErrors.
Import repeat RepeatFacts.

Section Repeat.
Context {J W : Type} {repeater : Repeater J W}.



(** X4.  [Repeat] only ever appends to the errors it is given, and what it
    appends, like the world it ends in, does not depend on them: either the
    fuel runs out for every error list, or there are errors [more] and a
    world [w'] such that for every error list [errors] the result is
    [errors ++ more] and [w']. *)
Theorem Repeat_appends_errors (fuel : nat) :
  forall (jobs : list J) (w : W),
    (forall errors, Repeat fuel jobs errors w = None) \/
    (exists more w', forall errors,
        Repeat fuel jobs errors w = Some ((errors ++ more)%list, w')).
Proof.
  induction fuel as [|fuel IH]; intros jobs w; [now left|].
  destruct jobs as [|job jobs].
  - right. exists [], w. intros errors. now rewrite app_nil_r.
  - set (calls := invoke_all (job :: jobs) w).
    destruct (IH (retained calls) (world_after w calls)) as [N | (more & w' & S)].
    + left. intros errors. rewrite Repeat_unfold. apply N.
    + right. exists (reported 0 calls ++ more)%list, w'. intros errors.
      rewrite Repeat_unfold. cbn zeta. fold calls. rewrite S, app_assoc. reflexivity.
Qed.


End Repeat.

Import jobs.



Lemma wrap_inRange (z : Z) : GoInt.inRange z -> GoInt.wrap z = z.
Proof.
  unfold GoInt.inRange, GoInt.minInt, GoInt.maxInt, GoInt.wrap. intros R.
  rewrite Z.mod_small; lia.
Qed.

Lemma store_same (h : heap) (p : nat) (o : object) : store h p o p = o.
Proof. unfold store. now rewrite Nat.eqb_refl. Qed.

(** One round over the single job [p]. *)
Lemma Repeat_single (fuel : nat) (p : nat) (errors : list string) (h : heap) :
  Repeat (S fuel) [p] errors h
  = let r := job_Repeat p h in
    Repeat fuel (if fst (fst r) then [p] else [])
           (errors ++ match snd (fst r) with
                      | Some err => [Sprintf_error 0 (Name p (snd r)) (State p (snd r)) err]
                      | None => []
                      end)%list
           (snd r).
Proof.
  rewrite Repeat_unfold. cbn zeta. unfold retained, world_after.
  cbn [invoke_all filter map reported callee again failure after List.last].
  destruct (job_Repeat p h) as [[[|] [e|]] h']; reflexivity.
Qed.

Lemma inc_run (k : nat) :
  forall (h : heap) (p : nat) (id : string) (n : Z) (errors : list string),
    h p = Inc {| inc_id := id; inc_num := n |} ->
    GoInt.minInt <= n -> n + Z.of_nat k = 9 ->
    exists h', Repeat (k + 2) [p] errors h = Some (errors, h') /\
               h' p = Inc {| inc_id := id; inc_num := 10 |}.
Proof.
  induction k as [|k IH]; intros h p id n errors Hp Hn Hk.
  - assert (n = 9) by lia. subst n.
    eexists. split.
    + cbn [Nat.add]. rewrite Repeat_single. cbn. rewrite Hp. cbn.
      rewrite app_nil_r. reflexivity.
    + apply store_same.
  - assert (R : GoInt.wrap (n + 1) = n + 1).
    { apply wrap_inRange. unfold GoInt.inRange, GoInt.minInt, GoInt.maxInt in *. lia. }
    destruct (IH (store h p (Inc {| inc_id := id; inc_num := n + 1 |})) p id (n + 1)
                 errors (store_same _ _ _)) as (h' & E & Hh'); [lia | lia |].
    exists h'. split; [|exact Hh'].
    cbn [Nat.add]. rewrite Repeat_single.
    cbn [job_Repeat pointer_Repeater]. rewrite Hp. unfold inc_Repeat. cbn [inc_num inc_id].
    rewrite R. replace (10 <=? n + 1) with false by (symmetry; apply Z.leb_gt; lia).
    cbn [fst snd]. rewrite app_nil_r. exact E.
Qed.

Lemma dec_run (k : nat) :
  forall (h : heap) (p : nat) (id : string) (errors : list string),
    h p = Dec {| dec_id := id; dec_num := Z.of_nat (S k) |} ->
    Z.of_nat (S k) <= GoInt.maxInt ->
    exists h', Repeat (k + 2) [p] errors h = Some (errors, h') /\
               h' p = Dec {| dec_id := id; dec_num := 0 |}.
Proof.
  induction k as [|k IH]; intros h p id errors Hp Hn.
  - eexists. split.
    + cbn [Nat.add]. rewrite Repeat_single. cbn. rewrite Hp. cbn.
      rewrite app_nil_r. reflexivity.
    + apply store_same.
  - assert (R : GoInt.wrap (Z.of_nat (S (S k)) - 1) = Z.of_nat (S k)).
    { rewrite wrap_inRange; [lia|].
      unfold GoInt.inRange, GoInt.minInt, GoInt.maxInt in *. lia. }
    destruct (IH (store h p (Dec {| dec_id := id; dec_num := Z.of_nat (S k) |})) p id
                 errors (store_same _ _ _)) as (h' & E & Hh'); [lia|].
    exists h'. split; [|exact Hh'].
    cbn [Nat.add]. rewrite Repeat_single.
    cbn [job_Repeat pointer_Repeater]. rewrite Hp. unfold dec_Repeat. cbn [dec_num dec_id].
    rewrite R. replace (Z.of_nat (S k) <=? 0) with false by (symmetry; apply Z.leb_gt; lia).
    cbn [fst snd]. rewrite app_nil_r. exact E.
Qed.

(** X7.  The counters of the tests, from any start: an [inc] below 10 is counted
    up to exactly 10, in [10 - n] rounds, and a positive [dec] is counted
    down to exactly 0, in [n] rounds; [Repeat] returns the errors it was
    given. *)
Theorem counters_reach_their_bound (h : heap) (p : nat) (id : string) (n : Z)
    (errors : list string) :
  (h p = Inc {| inc_id := id; inc_num := n |} ->
   GoInt.minInt <= n < 10 ->
   exists h', Repeat (Z.to_nat (10 - n) + 1) [p] errors h = Some (errors, h') /\
              h' p = Inc {| inc_id := id; inc_num := 10 |} /\ State p h' = "10") /\
  (h p = Dec {| dec_id := id; dec_num := n |} ->
   0 < n <= GoInt.maxInt ->
   exists h', Repeat (Z.to_nat n + 1) [p] errors h = Some (errors, h') /\
              h' p = Dec {| dec_id := id; dec_num := 0 |} /\ State p h' = "0").
Proof.
  split.
  - intros Hp [Hn Hlt].
    destruct (inc_run (Z.to_nat (9 - n)) h p id n errors Hp Hn) as (h' & E & Hh'); [lia|].
    exists h'. replace (Z.to_nat (10 - n) + 1)%nat with (Z.to_nat (9 - n) + 2)%nat by lia.
    split; [exact E|]. split; [exact Hh'|]. cbn. now rewrite Hh'.
  - intros Hp [Hn Hle].
    replace n with (Z.of_nat (S (Z.to_nat (n - 1)))) in Hp, Hle by lia.
    destruct (dec_run (Z.to_nat (n - 1)) h p id errors Hp Hle) as (h' & E & Hh').
    exists h'. replace (Z.to_nat n + 1)%nat with (Z.to_nat (n - 1) + 2)%nat by lia.
    split; [exact E|]. split; [exact Hh'|]. cbn. now rewrite Hh'.
Qed.

Lemma counters_reach_their_bound_witness :
  (heap_UpAndDown 0%nat = Inc {| inc_id := "Ten"; inc_num := 0 |} /\
   GoInt.minInt <= 0 < 10 /\
   exists h', Repeat (Z.to_nat (10 - 0) + 1) [0%nat] [] heap_UpAndDown = Some ([], h') /\
              h' 0%nat = Inc {| inc_id := "Ten"; inc_num := 10 |} /\ State 0%nat h' = "10") /\
  (heap_UpAndDown 1%nat = Dec {| dec_id := "Ten"; dec_num := 10 |} /\
   0 < 10 <= GoInt.maxInt /\
   exists h', Repeat (Z.to_nat 10 + 1) [1%nat] [] heap_UpAndDown = Some ([], h') /\
              h' 1%nat = Dec {| dec_id := "Ten"; dec_num := 0 |} /\ State 1%nat h' = "0").
Proof.
  assert (R1 : GoInt.minInt <= 0 < 10) by (split; [discriminate | reflexivity]).
  assert (R2 : 0 < 10 <= GoInt.maxInt) by (split; [reflexivity | discriminate]).
  split.
  - split; [reflexivity|]. split; [exact R1|].
    exact (proj1 (counters_reach_their_bound heap_UpAndDown 0%nat "Ten" 0 []) eq_refl R1).
  - split; [reflexivity|]. split; [exact R2|].
    exact (proj2 (counters_reach_their_bound heap_UpAndDown 1%nat "Ten" 10 []) eq_refl R2).
Defined.

End RepeatErrors.

(** ** More on the reputation records *)

Module MorphismFacts.

Lemma wrap_wrap_sub (v s : Z) : GoInt.wrap (GoInt.wrap (v + s) - s) = GoInt.wrap v.
Proof.
  unfold GoInt.wrap. f_equal.
  replace ((v + s + 2 ^ 63) mod 2 ^ 64 - 2 ^ 63 - s + 2 ^ 63)
    with ((v + s + 2 ^ 63) mod 2 ^ 64 - s) by lia.
  rewrite Zminus_mod_idemp_l. f_equal. lia.
Qed.

Lemma wrap_wrap_add (v s : Z) : GoInt.wrap (GoInt.wrap (v - s) + s) = GoInt.wrap v.
Proof.
  unfold GoInt.wrap. f_equal.
  replace ((v - s + 2 ^ 63) mod 2 ^ 64 - 2 ^ 63 + s + 2 ^ 63)
    with ((v - s + 2 ^ 63) mod 2 ^ 64 + s) by lia.
  rewrite Zplus_mod_idemp_l. f_equal. lia.
Qed.

(** The later package has the same [performOp] and [morphism]. *)
Lemma performOp_same : nodereputation.performOp = reputation.performOp.
Proof. reflexivity. Qed.

Lemma morphism_same : nodereputation.morphism = reputation.morphism.
Proof. reflexivity. Qed.

Lemma decrement_increment (value scalar : Z) :
  GoInt.inRange value ->
  reputation.performOp decrement (reputation.performOp increment value scalar) scalar = value.
Proof.
  intros R. change (GoInt.wrap (GoInt.wrap (value + scalar) - scalar) = value).
  rewrite wrap_wrap_sub. now apply RepeatErrors.wrap_inRange.
Qed.

Lemma increment_decrement (value scalar : Z) :
  GoInt.inRange value ->
  reputation.performOp increment (reputation.performOp decrement value scalar) scalar = value.
Proof.
  intros R. change (GoInt.wrap (GoInt.wrap (value - scalar) + scalar) = value).
  rewrite wrap_wrap_add. now apply RepeatErrors.wrap_inRange.
Qed.

(** X8.  Decrementing undoes incrementing by the same scalar, and the other way
    round, also when the sum in between overflows and wraps around. *)
Theorem performOp_undo (value scalar : Z) :
  GoInt.inRange value ->
  reputation.performOp decrement (reputation.performOp increment value scalar) scalar = value /\
  reputation.performOp increment (reputation.performOp decrement value scalar) scalar = value /\
  nodereputation.performOp decrement (nodereputation.performOp increment value scalar) scalar
    = value /\
  nodereputation.performOp increment (nodereputation.performOp decrement value scalar) scalar
    = value.
Proof.
  intros R. rewrite performOp_same.
  pose proof (decrement_increment value scalar R).
  pose proof (increment_decrement value scalar R).
  auto.
Qed.

Lemma performOp_undo_witness :
  GoInt.inRange GoInt.maxInt /\
  reputation.performOp decrement (reputation.performOp increment GoInt.maxInt 1) 1
    = GoInt.maxInt /\
  reputation.performOp increment GoInt.maxInt 1 = GoInt.minInt.
Proof.
  assert (R : GoInt.inRange GoInt.maxInt) by (split; discriminate).
  split; [exact R|]. split; [|reflexivity].
  exact (proj1 (performOp_undo GoInt.maxInt 1 R)).
Defined.

(** A column is one of the seven the switch of [morphism] names, or none of
    them. *)
Lemma column_cases (col : column) :
  col = uptimeColumn \/ col = auditSuccessColumn \/ col = auditFailColumn \/
  col = latencyColumn \/ col = amountOfDataStoredColumn \/ col = falseClaimsColumn \/
  col = shardsModifiedColumn \/
  (forall row op scalar, reputation.morphism row col op scalar = row).
Proof.
  destruct (String.eqb col uptimeColumn) eqn:E1;
    [apply String.eqb_eq in E1; tauto|].
  destruct (String.eqb col auditSuccessColumn) eqn:E2;
    [apply String.eqb_eq in E2; tauto|].
  destruct (String.eqb col auditFailColumn) eqn:E3;
    [apply String.eqb_eq in E3; tauto|].
  destruct (String.eqb col latencyColumn) eqn:E4;
    [apply String.eqb_eq in E4; tauto|].
  destruct (String.eqb col amountOfDataStoredColumn) eqn:E5;
    [apply String.eqb_eq in E5; tauto|].
  destruct (String.eqb col falseClaimsColumn) eqn:E6;
    [apply String.eqb_eq in E6; tauto|].
  destruct (String.eqb col shardsModifiedColumn) eqn:E7;
    [apply String.eqb_eq in E7; tauto|].
  do 7 right. intros row op scalar. unfold reputation.morphism.
  now rewrite E1, E2, E3, E4, E5, E6, E7.
Qed.

Ltac split_column col H :=
  destruct (column_cases col) as [H|[H|[H|[H|[H|[H|[H|H]]]]]]]; [subst col ..|].

(** X9.  Overwriting a column makes what was done to that column before
    irrelevant: the last write wins. *)
Theorem morphism_overWrite_last (row : NodeReputationRecord) (col : column)
    (op : mutOp) (a b : Z) :
  reputation.morphism (reputation.morphism row col op a) col overWrite b
    = reputation.morphism row col overWrite b /\
  nodereputation.morphism (nodereputation.morphism row col op a) col overWrite b
    = nodereputation.morphism row col overWrite b.
Proof.
  rewrite morphism_same.
  assert (A : reputation.morphism (reputation.morphism row col op a) col overWrite b
              = reputation.morphism row col overWrite b).
  { split_column col H; try reflexivity. now rewrite !H. }
  auto.
Qed.

(** X10.  Changes of two different columns can be made in either order. *)
Theorem morphism_commute (row : NodeReputationRecord) (col1 col2 : column)
    (op1 op2 : mutOp) (s1 s2 : Z) :
  col1 <> col2 ->
  reputation.morphism (reputation.morphism row col1 op1 s1) col2 op2 s2
    = reputation.morphism (reputation.morphism row col2 op2 s2) col1 op1 s1 /\
  nodereputation.morphism (nodereputation.morphism row col1 op1 s1) col2 op2 s2
    = nodereputation.morphism (nodereputation.morphism row col2 op2 s2) col1 op1 s1.
Proof.
  intros N. rewrite morphism_same.
  assert (A : reputation.morphism (reputation.morphism row col1 op1 s1) col2 op2 s2
              = reputation.morphism (reputation.morphism row col2 op2 s2) col1 op1 s1).
  { split_column col1 H1; split_column col2 H2;
      try contradiction; try reflexivity; rewrite ?H1, ?H2; reflexivity. }
  auto.
Qed.

Lemma morphism_commute_witness :
  uptimeColumn <> latencyColumn /\
  reputation.morphism
    (reputation.morphism (reputation.NewReputationRow "Bob" "Alice") uptimeColumn increment 3)
    latencyColumn overWrite 20
  = reputation.morphism
      (reputation.morphism (reputation.NewReputationRow "Bob" "Alice") latencyColumn overWrite 20)
      uptimeColumn increment 3.
Proof.
  assert (N : uptimeColumn <> latencyColumn) by discriminate.
  split; [exact N|].
  exact (proj1 (morphism_commute (reputation.NewReputationRow "Bob" "Alice")
                                 uptimeColumn latencyColumn increment overWrite 3 20 N)).
Defined.

(** X11.  An operation that is none of the three constants changes nothing,
    whatever the column. *)
Theorem morphism_unknown_op (row : NodeReputationRecord) (col : column) (op : mutOp)
    (scalar : Z) :
  op <> increment -> op <> decrement -> op <> overWrite ->
  reputation.morphism row col op scalar = row /\
  nodereputation.morphism row col op scalar = row.
Proof.
  intros N1 N2 N3. rewrite morphism_same.
  assert (P : forall v, reputation.performOp op v scalar = v).
  { intros v. unfold reputation.performOp.
    apply String.eqb_neq in N1, N2, N3. now rewrite N1, N2, N3. }
  assert (A : reputation.morphism row col op scalar = row).
  { split_column col H; [..|apply H];
      unfold reputation.morphism; cbn; rewrite P; now destruct row. }
  auto.
Qed.

Lemma morphism_unknown_op_witness :
  "multiply" <> increment /\ "multiply" <> decrement /\ "multiply" <> overWrite /\
  reputation.morphism (reputation.NewReputationRow "Bob" "Alice") uptimeColumn "multiply" 3
  = reputation.NewReputationRow "Bob" "Alice".
Proof.
  assert (N1 : "multiply" <> increment) by discriminate.
  assert (N2 : "multiply" <> decrement) by discriminate.
  assert (N3 : "multiply" <> overWrite) by discriminate.
  repeat (split; [assumption|]).
  exact (proj1 (morphism_unknown_op (reputation.NewReputationRow "Bob" "Alice")
                                    uptimeColumn "multiply" 3 N1 N2 N3)).
Defined.

End MorphismFacts.

Module RatioFacts.



(** X12.  Incrementing a column and decrementing it by the same scalar gives the
    record back, whatever the column, when the counters are values of
    [int]. *)
Theorem morphism_increment_decrement (row : NodeReputationRecord) (col : column)
    (scalar : Z) :
  countersInRange row ->
  reputation.morphism (reputation.morphism row col increment scalar) col decrement scalar
    = row /\
  nodereputation.morphism (nodereputation.morphism row col increment scalar) col decrement scalar
    = row.
Proof.
  intros (R1 & R2 & R3 & R4 & R5 & R6 & R7).
  rewrite MorphismFacts.morphism_same.
  assert (A : reputation.morphism (reputation.morphism row col increment scalar)
                                  col decrement scalar = row).
  { MorphismFacts.split_column col H; [..|now rewrite !H];
      unfold reputation.morphism; cbn -[reputation.performOp];
      match goal with
      | |- context [reputation.performOp decrement (reputation.performOp increment ?v _) _] =>
          rewrite (MorphismFacts.decrement_increment v scalar ltac:(assumption))
      end; now destruct row. }
  auto.
Qed.

Lemma morphism_increment_decrement_witness :
  countersInRange (reputation.NewReputationRow "Bob" "Alice") /\
  reputation.morphism
    (reputation.morphism (reputation.NewReputationRow "Bob" "Alice") uptimeColumn increment 5)
    uptimeColumn decrement 5
  = reputation.NewReputationRow "Bob" "Alice".
Proof.
  assert (R : countersInRange (reputation.NewReputationRow "Bob" "Alice"))
    by (repeat split; discriminate).
  split; [exact R|].
  exact (proj1 (morphism_increment_decrement (reputation.NewReputationRow "Bob" "Alice")
                                             uptimeColumn 5 R)).
Defined.

(** X13.  The slice version returns as many rows as it is given, and its row at
    index [i] is the morphism of the input row at index [i]. *)
Theorem NodeReputationRecordMorphism_rows (rows : list NodeReputationRecord)
    (col : column) (op : mutOp) (scalar : Z) :
  let res := reputation.NodeReputationRecordMorphism rows col op scalar in
  List.length res = List.length rows /\
  (forall i, nth_error res i
             = option_map (fun row => reputation.morphism row col op scalar) (nth_error rows i)) /\
  (forall i row r, nth_error rows i = Some row -> nth_error res i = Some r ->
                   differsOnlyAt col row r).
Proof.
  cbn zeta. rewrite ReputationFacts.NodeReputationRecordMorphism_map.
  split; [apply length_map|]. split.
  - intros i. apply nth_error_map.
  - intros i row r H1 H2. rewrite nth_error_map, H1 in H2. injection H2 as <-.
    (* the frame of one row, read off the definition of [morphism] *)
    unfold reputation.morphism.
    repeat match goal with
           | |- context [String.eqb col ?c] =>
               let E := fresh "E" in
               destruct (String.eqb col c) eqn:E;
               [apply String.eqb_eq in E; subst col; unfold differsOnlyAt; cbn;
                repeat split; trivial; intros; trivial; congruence|]
           end.
    unfold differsOnlyAt. tauto.
Qed.

End RatioFacts.

(** ** The comparison of records *)

Module EndianFacts.
Import GoCompare reputation_endian.

Lemma begins_write (a b : string) (codes : string * string) (u v : string) :
  begins a b codes -> begins a b (fst codes ++ u, snd codes ++ v).
Proof.
  intros (x & y & ->). exists (x ++ u), (y ++ v). cbn [fst snd].
  now rewrite !GoStringFacts.append_assoc.
Qed.

Lemma begins_write3 (a b : string) (codes : string * string) (p q : bool) :
  begins a b codes -> begins a b (write3 codes p q).
Proof.
  intros H. unfold write3, write. destruct p; [|destruct q]; now apply begins_write.
Qed.

Lemma append_nil_r (s : string) : s ++ "" = s.
Proof. induction s as [|c s IH]; cbn; congruence. Qed.

Lemma begins_start (a b : string) : begins a b (a, b).
Proof. exists "", "". now rewrite !append_nil_r. Qed.

(** What the columns after the first leave of the first bits. *)
Lemma endian_codes_first (row other : NodeReputationRecord) :
  let first :=
    write3 ("", "")
      (string_gt (timestamp row) (timestamp other) && String.eqb (nodeName row) (nodeName other))
      (string_lt (timestamp row) (timestamp other) && String.eqb (nodeName row) (nodeName other)) in
  begins (fst first) (snd first) (endian_codes row other).
Proof.
  cbn zeta. unfold endian_codes.
  repeat apply begins_write3.
  destruct (0 <? shardsModified row), (0 <? shardsModified other); cbn [fst snd];
    eexists _, _; reflexivity.
Qed.

Lemma compare_refl (s : string) : String.compare s s = Eq.
Proof.
  induction s as [|c s IH]; [reflexivity|]. cbn.
  unfold Ascii.compare. now rewrite N.compare_refl.
Qed.

Lemma string_gt_not_lt (a b : string) : string_gt a b = true -> string_lt a b = false.
Proof.
  unfold string_gt, string_lt, String.ltb. rewrite (String.compare_antisym a b).
  now destruct (String.compare b a).
Qed.

Lemma string_lt_not_gt (a b : string) : string_lt a b = true -> string_gt a b = false.
Proof.
  unfold string_gt, string_lt, String.ltb. rewrite (String.compare_antisym a b).
  now destruct (String.compare b a).
Qed.

(** X15.  Of two records of the same node with different timestamps, [endian]
    returns the one with the later timestamp, whatever the other columns
    say. *)
Theorem endian_later_timestamp (row other : NodeReputationRecord) :
  nodeName row = nodeName other ->
  (string_gt (timestamp row) (timestamp other) = true -> fst (endian row other) = row) /\
  (string_lt (timestamp row) (timestamp other) = true -> fst (endian row other) = other).
Proof.
  intros N. pose proof (endian_codes_first row other) as B. cbn zeta in B.
  apply String.eqb_eq in N. rewrite N, !andb_true_r in B.
  unfold endian. split; intros H.
  - rewrite H in B. destruct B as (x & y & ->). reflexivity.
  - rewrite (string_lt_not_gt _ _ H), H in B. destruct B as (x & y & ->). reflexivity.
Qed.

Lemma endian_later_timestamp_witness :
  nodeName records.laterAlice = nodeName records.freshAlice /\
  string_gt (timestamp records.laterAlice) (timestamp records.freshAlice) = true /\
  fst (endian records.laterAlice records.freshAlice) = records.laterAlice.
Proof.
  split; [reflexivity|]. split; [reflexivity|].
  exact (proj1 (endian_later_timestamp records.laterAlice records.freshAlice eq_refl)
               eq_refl).
Defined.

(** What the columns after the second leave of the first two bits. *)
Lemma endian_codes_second (row other : NodeReputationRecord) :
  let first :=
    write3 ("", "")
      (string_gt (timestamp row) (timestamp other) && String.eqb (nodeName row) (nodeName other))
      (string_lt (timestamp row) (timestamp other) && String.eqb (nodeName row) (nodeName other)) in
  begins (fst first ++ (if 0 <? shardsModified row then "0" else "1"))
         (snd first ++ (if 0 <? shardsModified other then "0" else "1"))
         (endian_codes row other).
Proof.
  cbn zeta. unfold endian_codes.
  repeat apply begins_write3.
  destruct (0 <? shardsModified row), (0 <? shardsModified other); cbn [fst snd];
    apply begins_start.
Qed.

(** X16.  When the timestamps do not decide (the records are of different nodes,
    or have the same timestamp), a record whose shards were not modified is
    preferred to one whose shards were, whatever the later columns say. *)
Theorem endian_modified_shards (row other : NodeReputationRecord) :
  nodeName row <> nodeName other \/ timestamp row = timestamp other ->
  (shardsModified row <= 0 -> 0 < shardsModified other -> fst (endian row other) = row) /\
  (0 < shardsModified row -> shardsModified other <= 0 -> fst (endian row other) = other).
Proof.
  intros T. pose proof (endian_codes_second row other) as B. cbn zeta in B.
  assert (E : (string_gt (timestamp row) (timestamp other)
               && String.eqb (nodeName row) (nodeName other) = false) /\
              (string_lt (timestamp row) (timestamp other)
               && String.eqb (nodeName row) (nodeName other) = false)).
  { destruct T as [T | T].
    - apply String.eqb_neq in T. now rewrite T, !andb_false_r.
    - rewrite T. unfold string_gt, string_lt, String.ltb.
      now rewrite compare_refl. }
  destruct E as [E1 E2]. rewrite E1, E2 in B. cbn [write3 write fst snd] in B.
  unfold endian. split; intros H1 H2.
  - replace (0 <? shardsModified row) with false in B by (symmetry; apply Z.ltb_ge; lia).
    replace (0 <? shardsModified other) with true in B by (symmetry; apply Z.ltb_lt; lia).
    destruct B as (x & y & ->). reflexivity.
  - replace (0 <? shardsModified row) with true in B by (symmetry; apply Z.ltb_lt; lia).
    replace (0 <? shardsModified other) with false in B by (symmetry; apply Z.ltb_ge; lia).
    destruct B as (x & y & ->). reflexivity.
Qed.

Lemma endian_modified_shards_witness :
  (nodeName records.freshAlice <> nodeName records.modifiedCarol \/
   timestamp records.freshAlice = timestamp records.modifiedCarol) /\
  shardsModified records.freshAlice <= 0 /\ 0 < shardsModified records.modifiedCarol /\
  fst (endian records.freshAlice records.modifiedCarol) = records.freshAlice.
Proof.
  assert (T : nodeName records.freshAlice <> nodeName records.modifiedCarol) by discriminate.
  assert (H1 : shardsModified records.freshAlice <= 0) by discriminate.
  assert (H2 : 0 < shardsModified records.modifiedCarol) by reflexivity.
  split; [left; exact T|]. split; [exact H1|]. split; [exact H2|].
  exact (proj1 (endian_modified_shards records.freshAlice records.modifiedCarol
                                       (or_introl T)) H1 H2).
Defined.

Example endian_prints :
  snd (endian (reputation.NewReputationRow "self" "identity")
              (reputation.NewReputationRow "Bob" "Alice"))
  = "endian: 0100000, me: identity" ++ newline
      ++ "endian: 0100000, other: Alice" ++ newline
      ++ "WINNER: {Bob Alice  0 0 0 0 0 0 0}" ++ newline ++ newline.
Proof. reflexivity. Qed.

End EndianFacts.

(** ** The SQL statements *)

Module StatementFacts.
Import statements.

Ltac column_tests col :=
  repeat match goal with
         | |- context [String.eqb col ?c] =>
             let E := fresh "E" in destruct (String.eqb col c) eqn:E
         end.

(** For a column it knows, the loop of [GenWhereStatement] appends a clause
    to what it has; for any other column it forgets what it has. *)
Lemma addWhere_known (where_ : string) (opt : whereProtoTodo) :
  knownWhereColumn (where_col opt) = true ->
  addWhere where_ opt = where_ ++ addWhere "" opt.
Proof.
  unfold knownWhereColumn, addWhere. cbn [existsb]. cbn zeta.
  generalize (where_col opt) as col. intros col.
  column_tests col; try reflexivity. discriminate.
Qed.

Lemma addWhere_unknown (where_ : string) (opt : whereProtoTodo) :
  knownWhereColumn (where_col opt) = false -> addWhere where_ opt = "".
Proof.
  unfold knownWhereColumn, addWhere. cbn [existsb]. cbn zeta.
  generalize (where_col opt) as col. intros col.
  column_tests col; try reflexivity; discriminate.
Qed.

Lemma fold_addWhere_known (opts : list whereProtoTodo) :
  (forall opt, In opt opts -> knownWhereColumn (where_col opt) = true) ->
  forall where_,
    fold_left addWhere opts where_ = where_ ++ fold_right append "" (map (addWhere "") opts).
Proof.
  induction opts as [|opt opts IH]; intros K where_; cbn [fold_left map fold_right].
  - now rewrite EndianFacts.append_nil_r.
  - rewrite IH by (intros o Ho; apply K; now right).
    rewrite (addWhere_known where_ opt) by (apply K; now left).
    now rewrite GoStringFacts.append_assoc.
Qed.

(** X17.  When every constraint names a known column, the statement is the
    select, the word WHERE, the clauses of the constraints one after the
    other with nothing between them, and the limit; with no constraint at
    all the word WHERE is followed by the limit. *)
Theorem GenWhereStatement_clauses (limit : Z) (opts : list whereProtoTodo) :
  (forall opt, In opt opts -> knownWhereColumn (where_col opt) = true) ->
  GenWhereStatement limit opts
  = selectString ++ " WHERE" ++ fold_right append "" (map (addWhere "") opts)
      ++ " LIMIT " ++ GoInt.Itoa limit.
Proof.
  intros K. unfold GenWhereStatement. cbn zeta.
  rewrite (fold_addWhere_known opts K). now rewrite GoStringFacts.append_assoc.
Qed.

Lemma GenWhereStatement_clauses_witness :
  let opts := [ {| where_col := uptimeColumn; where_opt := greater; where_value := "10" |};
                {| where_col := nodeNameColumn; where_opt := equal; where_value := "Alice" |} ] in
  (forall opt, In opt opts -> knownWhereColumn (where_col opt) = true) /\
  GenWhereStatement 10 opts
  = selectString ++ " WHERE uptime> 10 node_name= 'Alice' LIMIT 10".
Proof.
  cbn zeta.
  set (opts := [ {| where_col := uptimeColumn; where_opt := greater; where_value := "10" |};
                 {| where_col := nodeNameColumn; where_opt := equal; where_value := "Alice" |} ]).
  assert (K : forall opt, In opt opts -> knownWhereColumn (where_col opt) = true).
  { intros opt [<- | [<- | []]]; reflexivity. }
  split; [exact K|].
  exact (GenWhereStatement_clauses 10 opts K).
Defined.

(** X18.  A constraint on a column [GenWhereStatement] does not know makes it
    forget every constraint before it, the word WHERE included: the
    statement is the same whatever came before, and when the unknown column
    comes last the statement selects without any condition. *)
Theorem GenWhereStatement_unknown_column (limit : Z) (pre post : list whereProtoTodo)
    (opt : whereProtoTodo) :
  knownWhereColumn (where_col opt) = false ->
  GenWhereStatement limit (pre ++ opt :: post) = GenWhereStatement limit (opt :: post) /\
  GenWhereStatement limit (pre ++ [opt]) = selectString ++ " LIMIT " ++ GoInt.Itoa limit.
Proof.
  intros U. unfold GenWhereStatement. cbn zeta.
  rewrite !fold_left_app. cbn [fold_left]. rewrite !(addWhere_unknown _ opt U).
  split; reflexivity.
Qed.

Lemma GenWhereStatement_unknown_column_witness :
  let known := {| where_col := uptimeColumn; where_opt := greater; where_value := "10" |} in
  let unknown := {| where_col := "timestamp"; where_opt := less; where_value := "'NOW'" |} in
  knownWhereColumn (where_col unknown) = false /\
  GenWhereStatement 10 ([known] ++ [unknown]) = selectString ++ " LIMIT 10".
Proof.
  cbn zeta. split; [reflexivity|].
  exact (proj2 (GenWhereStatement_unknown_column 10
                  [ {| where_col := uptimeColumn; where_opt := greater; where_value := "10" |} ]
                  []
                  {| where_col := "timestamp"; where_opt := less; where_value := "'NOW'" |}
                  eq_refl)).
Defined.

Lemma addUpdate_append (acc : string) (update : updateProtoTodo) :
  addUpdate acc update = acc ++ addUpdate "" update.
Proof.
  unfold addUpdate. cbn zeta. generalize (update_col update) as col. intros col.
  column_tests col; try reflexivity. now rewrite EndianFacts.append_nil_r.
Qed.

Lemma addUpdate_unknown (update : updateProtoTodo) :
  knownUpdateColumn (update_col update) = false -> addUpdate "" update = "".
Proof.
  unfold knownUpdateColumn, addUpdate. cbn [existsb]. cbn zeta.
  generalize (update_col update) as col. intros col.
  column_tests col; try reflexivity; discriminate.
Qed.

Lemma fold_addUpdate (updates : list updateProtoTodo) :
  forall acc,
    fold_left addUpdate updates acc = acc ++ fold_right append "" (map (addUpdate "") updates).
Proof.
  induction updates as [|u updates IH]; intros acc; cbn [fold_left map fold_right].
  - now rewrite EndianFacts.append_nil_r.
  - rewrite IH, (addUpdate_append acc u). now rewrite GoStringFacts.append_assoc.
Qed.

(** X19.  Without updates [GenUpdateStatement] returns a select that only carries
    a message.  With updates it returns the UPDATE that sets [last_seen],
    then one assignment per update of a known column, in order, and the
    condition on the node name; an update of an unknown column adds nothing,
    so a list of such updates alone still gives an UPDATE of [last_seen]. *)
Theorem GenUpdateStatement_assignments (updates : list updateProtoTodo) (node : string) :
  (updates = [] ->
   GenUpdateStatement updates node = "SELECT 'No updates found in parameter list';") /\
  (updates <> [] ->
   GenUpdateStatement updates node
   = updateHead ++ fold_right append "" (map (addUpdate "") updates)
       ++ "WHERE node_name = '" ++ node ++ "';") /\
  (updates <> [] ->
   (forall u, In u updates -> knownUpdateColumn (update_col u) = false) ->
   GenUpdateStatement updates node = updateHead ++ "WHERE node_name = '" ++ node ++ "';").
Proof.
  assert (N : updates <> [] ->
              GenUpdateStatement updates node
              = updateHead ++ fold_right append "" (map (addUpdate "") updates)
                  ++ "WHERE node_name = '" ++ node ++ "';").
  { intros H. unfold GenUpdateStatement. cbn zeta.
    destruct updates as [|u updates]; [contradiction|].
    replace (0 <? Z.of_nat (List.length (u :: updates))) with true
      by (symmetry; apply Z.ltb_lt; cbn [List.length]; lia).
    rewrite fold_addUpdate. now rewrite GoStringFacts.append_assoc. }
  split; [intros ->; reflexivity|]. split; [exact N|].
  intros H U. rewrite (N H).
  assert (E : fold_right append "" (map (addUpdate "") updates) = "").
  { clear N H. induction updates as [|u updates IH]; [reflexivity|].
    cbn [map fold_right]. rewrite (addUpdate_unknown u) by (apply U; now left).
    cbn [append]. apply IH. intros v Hv. apply U. now right. }
  now rewrite E.
Qed.

Lemma GenUpdateStatement_assignments_witness :
  let updates := [ {| update_col := uptimeColumn; update_value := "30" |};
                   {| update_col := "source"; update_value := "Bob" |};
                   {| update_col := latencyColumn; update_value := "7" |} ] in
  updates <> [] /\
  GenUpdateStatement updates "Alice"
  = updateHead ++ ", uptime = 30, latency = 7WHERE node_name = 'Alice';".
Proof.
  cbn zeta.
  set (updates := [ {| update_col := uptimeColumn; update_value := "30" |};
                    {| update_col := "source"; update_value := "Bob" |};
                    {| update_col := latencyColumn; update_value := "7" |} ]).
  assert (N : updates <> []) by discriminate.
  split; [exact N|].
  exact (proj1 (proj2 (GenUpdateStatement_assignments updates "Alice")) N).
Defined.

End StatementFacts.

(** ** More on the Kademlia wrapper *)

Module AddressFacts.
Import GoString GoStringFacts Net.

Lemma take_drop (n : nat) (s : string) : take n s ++ drop n s = s.
Proof.
  revert s. induction n as [|n IH]; intros [|c s]; cbn; try reflexivity.
  now rewrite IH.
Qed.

(** The byte at the index [IndexByteString] returns is the byte searched. *)
Lemma drop_IndexByteString (s : string) (c : ascii) :
  0 <= IndexByteString s c ->
  drop (Z.to_nat (IndexByteString s c)) s
  = String c (drop (Z.to_nat (IndexByteString s c) + 1) s).
Proof.
  induction s as [|a s IH]; cbn [IndexByteString]; [lia|].
  destruct (Ascii.eqb a c) eqn:E.
  - apply Ascii.eqb_eq in E. subst a. intros _. reflexivity.
  - pose proof (IndexByteString_lower s c).
    destruct (IndexByteString s c <? 0) eqn:L; [lia|]. apply Z.ltb_ge in L. intros _.
    replace (Z.to_nat (IndexByteString s c + 1)) with (S (Z.to_nat (IndexByteString s c)))
      by lia.
    cbn [drop Nat.add]. exact (IH L).
Qed.

(** The same for [last]. *)
Lemma drop_last (s : string) (c : ascii) :
  0 <= last s c ->
  drop (Z.to_nat (last s c)) s = String c (drop (Z.to_nat (last s c) + 1) s).
Proof.
  induction s as [|a s IH]; cbn [last]; [lia|].
  pose proof (last_lower s c).
  destruct (0 <=? last s c) eqn:L.
  - apply Z.leb_le in L. intros _.
    replace (Z.to_nat (last s c + 1)) with (S (Z.to_nat (last s c))) by lia.
    cbn [drop Nat.add]. exact (IH L).
  - destruct (Ascii.eqb a c) eqn:E; [|lia].
    apply Ascii.eqb_eq in E. subst a. intros _. reflexivity.
Qed.

Lemma byteIs_0 (s : string) (c : ascii) :
  byteIs s 0 c = true -> exists s', s = String c s'.
Proof.
  unfold byteIs. destruct s as [|a s]; cbn; [discriminate|].
  intros E. apply Ascii.eqb_eq in E. subst a. eauto.
Qed.

(** Joining what [SplitHostPort] returned gives the address back, unless the
    address had brackets around a host without a colon. *)
Lemma JoinHostPort_SplitHostPort (hostport host port : string) :
  SplitHostPort hostport = inl (host, port) ->
  (byteIs hostport 0 "[" = true -> lacks ":" host = false) ->
  JoinHostPort host port = hostport.
Proof.
  unfold SplitHostPort.
  destruct (last hostport ":" <? 0) eqn:Li; [discriminate|]. apply Z.ltb_ge in Li.
  pose proof (drop_last hostport ":" Li) as Dl.
  set (i := last hostport ":") in *.
  destruct (byteIs hostport 0 "[") eqn:B.
  - destruct (byteIs_0 _ _ B) as [rest ->].
    cbn [IndexByteString]. replace (Ascii.eqb "[" "]") with false by reflexivity.
    pose proof (IndexByteString_lower rest "]") as Lo.
    destruct (IndexByteString rest "]" <? 0) eqn:Le.
    { destruct (-1 <? 0) eqn:X; [discriminate | discriminate X]. }
    apply Z.ltb_ge in Le.
    pose proof (drop_IndexByteString rest "]" Le) as De.
    set (e := IndexByteString rest "]") in *.
    replace (e + 1 <? 0) with false by (symmetry; apply Z.ltb_ge; lia).
    destruct (e + 1 + 1 =? len (String "[" rest)); [discriminate|].
    destruct (e + 1 + 1 =? i) eqn:Ei;
      [|destruct (byteIs (String "[" rest) (e + 1 + 1) ":"); discriminate].
    apply Z.eqb_eq in Ei.
    destruct (0 <=? IndexByteString (slice_from (String "[" rest) 1) "["); [discriminate|].
    destruct (0 <=? IndexByteString (slice_from (String "[" rest) (e + 1 + 1)) "]");
      [discriminate|].
    intros [= <- <-] C. specialize (C eq_refl).
    unfold JoinHostPort. rewrite (has_IndexByteString _ _ C).
    unfold slice, slice_from.
    replace (Z.to_nat (e + 1 - 1)) with (Z.to_nat e) by lia.
    replace (Z.to_nat (i + 1)) with (S (Z.to_nat e + 1 + 1)) by lia.
    replace (Z.to_nat i) with (S (Z.to_nat e + 1)) in Dl by lia.
    replace (Z.to_nat i + 1)%nat with (S (Z.to_nat e + 1 + 1)) in Dl by lia.
    cbn [Z.to_nat Pos.to_nat Pos.iter_op Nat.add drop] in *.
    rewrite Dl in De.
    change (drop (Pos.to_nat 1) (String "[" rest)) with rest.
    change ("[" ++ take (Z.to_nat e) rest ++ "]:" ++ drop (Z.to_nat e + 1 + 1) rest)
      with (String "[" (take (Z.to_nat e) rest
                        ++ String "]" (String ":" (drop (Z.to_nat e + 1 + 1) rest)))).
    rewrite <- De, take_drop. reflexivity.
  - destruct (0 <=? IndexByteString (slice hostport 0 i) ":") eqn:C; [discriminate|].
    destruct (0 <=? IndexByteString (slice_from hostport 0) "["); [discriminate|].
    destruct (0 <=? IndexByteString (slice_from hostport 0) "]"); [discriminate|].
    intros [= <- <-] _.
    unfold JoinHostPort. rewrite C.
    unfold slice, slice_from. rewrite Z.sub_0_r. cbn [Z.to_nat drop].
    replace (Z.to_nat (i + 1)) with (Z.to_nat i + 1)%nat by lia.
    change (take (Z.to_nat i) hostport ++ ":" ++ drop (Z.to_nat i + 1) hostport)
      with (take (Z.to_nat i) hostport ++ String ":" (drop (Z.to_nat i + 1) hostport)).
    rewrite <- Dl. apply take_drop.
Qed.

End AddressFacts.

Module WrapperFacts.
Import proto kademlia examples.
Import GoString.

Section WithIP.
Context {netip : NetIP}.

(** X1.  [GetNodes] returns the conversions of the nodes the library found, as
    many and in the same order, none of them nil; when the library fails it
    returns the empty list and the error of the library; and an empty start
    stands for the ID of the local node. *)
Theorem GetNodes_converts (k : Kademlia) (start : string) (limit : Z) :
  let asked := if String.eqb start "" then dht_GetSelfID (dht k) else start in
  let found := fst (dht_FindNodes (dht k) asked limit) in
  let err := snd (dht_FindNodes (dht k) asked limit) in
  let r := GetNodes k start limit in
  (forall e, err = Some e -> r = ([], Some e)) /\
  (err = None ->
     snd r = None /\
     List.length (fst r) = List.length found /\
     forall i v, nth_error found i = Some v ->
                 nth_error (fst r) i = Some (Some (convertNetworkNode v))) /\
  GetNodes k "" limit = GetNodes k (dht_GetSelfID (dht k)) limit.
Proof.
  cbn zeta. split; [|split].
  - unfold GetNodes. intros e H.
    destruct (dht_FindNodes (dht k) _ limit) as [nn [e'|]]; cbn in H; [|discriminate].
    now injection H as ->.
  - unfold GetNodes. intros H.
    destruct (dht_FindNodes (dht k) _ limit) as [nn [e'|]]; cbn in H; [discriminate|].
    cbn [fst snd]. rewrite ConversionFacts.convertNetworkNodes_map.
    split; [reflexivity|]. split; [apply length_map|].
    intros i v Hv. now rewrite nth_error_map, Hv.
  - unfold GetNodes. cbn [String.eqb].
    destruct (String.eqb (dht_GetSelfID (dht k)) "") eqn:E; [|reflexivity].
    apply String.eqb_eq in E. now rewrite E.
Qed.

(** One node to the wire and back. *)
Lemma convertProtoNode_after_convertNetworkNode (v : NetworkNode) :
  wellFormedIP (IP v) -> GoInt.inRange (Port v) ->
  convertProtoNode (convertNetworkNode v)
  = inl {| ID := ID v; IP := ParseIP (IP_String (IP v)); Port := Port v |}.
Proof.
  intros (Hl & Hr & Hp) R.
  unfold convertProtoNode, convertNetworkNode, GetAddress, NodeAddress_GetAddress, GetId.
  cbn [Address na_Address Id].
  rewrite NetFacts.SplitHostPort_JoinHostPort; trivial;
    try (apply GoIntFacts.lacks_Itoa; (reflexivity || discriminate)).
  cbn [ID IP Port NewNetworkNode]. now rewrite (GoIntRoundTrip.Atoi_Itoa _ R).
Qed.

(** X2.  A list of network nodes with well-formed IPs and ports in range goes to
    the wire and back without error: [convertProtoNodes] succeeds on the
    nodes [convertNetworkNode] made, and returns as many nodes, the one at
    index [i] with the ID, the host and the port of the input at index
    [i]. *)
Theorem convertProtoNodes_after_convertNetworkNode (n : list NetworkNode) :
  (forall v, In v n -> wellFormedIP (IP v) /\ GoInt.inRange (Port v)) ->
  let r := convertProtoNodes (map convertNetworkNode n) in
  snd r = None /\
  List.length (fst r) = List.length n /\
  forall i v, nth_error n i = Some v ->
              exists nn, nth_error (fst r) i = Some (Some nn) /\
                         ID nn = ID v /\
                         IP_String (IP nn) = IP_String (IP v) /\
                         Port nn = Port v.
Proof.
  intros H. cbn zeta.
  assert (Hok : forall u, In u (map convertNetworkNode n) ->
                          exists node, convertProtoNode u = inl node).
  { intros u Hu. apply in_map_iff in Hu as (v & <- & Hv).
    destruct (H v Hv) as [W R].
    rewrite (convertProtoNode_after_convertNetworkNode v W R). eauto. }
  pose proof (ConversionFacts.convertProtoNodes_loop_fills _ [] Hok) as E.
  cbn [List.length app] in E. unfold convertProtoNodes. rewrite E. cbn [fst snd].
  split; [reflexivity|]. split; [now rewrite !length_map|].
  intros i v Hv. destruct (H v (nth_error_In _ _ Hv)) as [W R].
  eexists. split.
  - rewrite !nth_error_map, Hv. cbn [option_map]. unfold converted.
    rewrite (convertProtoNode_after_convertNetworkNode v W R). reflexivity.
  - cbn [ID IP Port]. destruct W as (_ & _ & W). auto.
Qed.

(** X3.  A wire node to the library and back.  When the address of a TCP node
    splits into a host and a port that are in canonical form (the host
    prints as it was written, so does the port) and the address has no
    brackets around a host without a colon, [convertNetworkNode] gives the
    node back from what [convertProtoNode] made of it. *)
Theorem convertNetworkNode_after_convertProtoNode (n : Node) (a : NodeAddress)
    (host port : string) :
  Address n = Some a -> Transport a = NodeTransport_TCP ->
  Net.SplitHostPort (na_Address a) = inl (host, port) ->
  IP_String (ParseIP host) = host ->
  GoInt.Itoa (fst (GoInt.Atoi port)) = port ->
  (byteIs (na_Address a) 0 "[" = true -> lacks ":" host = false) ->
  exists nn, convertProtoNode n = inl nn /\ convertNetworkNode nn = n.
Proof.
  intros Ha Ht Hs Hh Hp Hb.
  unfold convertProtoNode, GetAddress, NodeAddress_GetAddress. rewrite Ha, Hs.
  eexists. split; [reflexivity|].
  unfold convertNetworkNode, NewNetworkNode, GetId. cbn [ID IP Port].
  rewrite Hh, Hp, (AddressFacts.JoinHostPort_SplitHostPort _ _ _ Hs Hb).
  destruct n as [id addr], a as [t text]. cbn in *. subst. reflexivity.
Qed.

End WithIP.

#[local] Existing Instance TextIP.

Lemma convertProtoNodes_after_convertNetworkNode_witness :
  (forall v, In v [nodeV4; nodeV6] -> wellFormedIP (IP v) /\ GoInt.inRange (Port v)) /\
  snd (convertProtoNodes (map convertNetworkNode [nodeV4; nodeV6])) = None.
Proof.
  assert (H : forall v, In v [nodeV4; nodeV6] ->
                        wellFormedIP (IP v) /\ GoInt.inRange (Port v)).
  { intros v [<- | [<- | []]]; (split; [repeat split | split; discriminate]). }
  split; [exact H|].
  exact (proj1 (convertProtoNodes_after_convertNetworkNode [nodeV4; nodeV6] H)).
Defined.

Lemma convertNetworkNode_after_convertProtoNode_witness :
  Address protoV4
    = Some {| Transport := NodeTransport_TCP; na_Address := "127.0.0.1:8080" |} /\
  Net.SplitHostPort "127.0.0.1:8080" = inl ("127.0.0.1", "8080") /\
  exists nn, convertProtoNode protoV4 = inl nn /\ convertNetworkNode nn = protoV4.
Proof.
  split; [reflexivity|]. split; [reflexivity|].
  refine (convertNetworkNode_after_convertProtoNode protoV4
            {| Transport := NodeTransport_TCP; na_Address := "127.0.0.1:8080" |}
            "127.0.0.1" "8080" eq_refl eq_refl eq_refl eq_refl eq_refl _).
  intros B. discriminate B.
Defined.

End WrapperFacts.

(** ** The rounds of the scheduler, once more *)

Module RepeatRounds.
Import repeat RepeatFacts.

Section Repeat.
Context {J W : Type} {repeater : Repeater J W}.

(** Only entries of the list are invoked, in whatever round. *)
Lemma round_calls_positions (r : nat) :
  forall (jobs : list (nat * J)) (w : W) (i : nat) (c : call),
    In (i, c) (round_calls r jobs w) -> In i (map fst jobs).
Proof.
  induction r as [|r IH]; intros jobs w i c H; cbn [round_calls] in H.
  - rewrite <- (numbered_calls_fst jobs w). apply in_map_iff. now exists (i, c).
  - apply IH in H. apply numbered_retained_In in H as (c0 & H0 & _).
    rewrite <- (numbered_calls_fst jobs w). apply in_map_iff. now exists (i, c0).
Qed.

Lemma finished_stays_out (r : nat) :
  forall (jobs : list (nat * J)) (w : W) (i : nat) (c : call),
    NoDup (map fst jobs) ->
    In (i, c) (round_calls r jobs w) -> again c = false ->
    forall r' c', (r < r')%nat -> ~ In (i, c') (round_calls r' jobs w).
Proof.
  induction r as [|r IH]; intros jobs w i c N H A r' c' L H';
    (destruct r' as [|r']; [lia|]); cbn [round_calls] in H, H'.
  - apply round_calls_positions in H'.
    apply numbered_retained_In in H' as (c0 & H0 & A0).
    unfold numbered_calls in H, H0.
    rewrite (combine_functional _ _ _ _ _ N H H0) in A. congruence.
  - apply (IH _ _ _ _ (numbered_retained_NoDup jobs w N) H A r' c'); [lia | exact H'].
Qed.

Lemma once_per_round (r : nat) :
  forall (jobs : list (nat * J)) (w : W),
    NoDup (map fst jobs) -> NoDup (map fst (round_calls r jobs w)).
Proof.
  induction r as [|r IH]; intros jobs w N; cbn [round_calls].
  - now rewrite numbered_calls_fst.
  - apply IH. now apply numbered_retained_NoDup.
Qed.

(** X6.  In every round an entry of the job list is invoked at most once, and an
    entry whose [Repeat()] returned false in some round is not invoked in
    any later round. *)
Theorem Repeat_finished_jobs_rest (jobs : list J) (w : W) :
  (forall r, NoDup (map fst (round_calls r (numbered jobs) w))) /\
  (forall i r, returns_false_in_round jobs w i r ->
               forall r' c', (r < r')%nat -> ~ In (i, c') (round_calls r' (numbered jobs) w)).
Proof.
  assert (N : NoDup (map fst (numbered jobs))) by (rewrite numbered_fst; apply seq_NoDup).
  split.
  - intros r. now apply once_per_round.
  - intros i r (c & H & A) r' c' L. exact (finished_stays_out r _ w i c N H A r' c' L).
Qed.

End Repeat.

Import jobs.

Lemma Repeat_finished_jobs_rest_witness :
  let h := store heap_CountUpToTen O (Inc {| inc_id := "Ten"; inc_num := 9 |}) in
  returns_false_in_round [O] h 0 0 /\
  forall r' c', (0 < r')%nat -> ~ In (O, c') (round_calls r' (numbered [O]) h).
Proof.
  cbn zeta.
  set (h := store heap_CountUpToTen O (Inc {| inc_id := "Ten"; inc_num := 9 |})).
  assert (H : returns_false_in_round [O] h 0 0).
  { eexists. split; [left; reflexivity | vm_compute; reflexivity]. }
  split; [exact H|].
  exact (proj2 (Repeat_finished_jobs_rest [O] h) O O H).
Defined.

End RepeatRounds.
